(** * gesedels: a key-value API in Go

    A shallow embedding of [gesedels.go] and of the parts of Go's standard
    library and of bbolt that it calls, with the properties of the pair
    store, of the two normalisers and of the response writers.

    Go strings and byte slices are sequences of bytes ([list ascii]); runes
    and Go [int]s are integers in [Z]; lengths and indexes are [nat]. *)

From Stdlib Require Import ZArith Ascii String List Lia DecimalString.
From stdpp Require Import gmap strings list.

Local Open Scope Z_scope.

(** ** Bytes *)

Abbreviation bytes := (list ascii).

(** A string literal as the bytes of a Go string. *)
Definition str (s : string) : bytes := list_ascii_of_string s.

(** The numeric value of a byte, and Go's conversion [byte(x)], which keeps
    the low eight bits. *)
Definition byteZ (c : ascii) : Z := Z.of_N (N_of_ascii c).
Definition byte_of_Z (z : Z) : ascii := ascii_of_N (Z.to_N (z mod 256)).

(** ** Package unicode/utf8 *)

Module Utf8.

Definition RuneError : Z := 0xFFFD.
Definition RuneSelf : Z := 0x80.
Definition MaxRune : Z := 0x10FFFF.
Definition UTFMax : nat := 4.

Definition surrogateMin : Z := 0xD800.
Definition surrogateMax : Z := 0xDFFF.

Definition t2 : Z := 0xC0.
Definition t3 : Z := 0xE0.
Definition t4 : Z := 0xF0.
Definition tx : Z := 0x80.
Definition maskx : Z := 0x3F.
Definition mask2 : Z := 0x1F.
Definition mask3 : Z := 0x0F.
Definition mask4 : Z := 0x07.

Definition rune1Max : Z := 0x7F.
Definition rune2Max : Z := 0x7FF.
Definition rune3Max : Z := 0xFFFF.

Definition locb : Z := 0x80.
Definition hicb : Z := 0xBF.

(** The entries of the table [first]: what the first byte of a sequence
    announces. [AS] is an ASCII byte, [XX] an invalid first byte, [SZ n lo hi]
    a sequence of [n] bytes whose second byte lies in [lo..hi] (the
    [acceptRanges] row of the entry). *)
Inductive firstInfo :=
| AS
| XX
| SZ (size : nat) (lo hi : Z).

Definition first (s0 : Z) : firstInfo :=
  if s0 <? 0x80 then AS
  else if s0 <? 0xC2 then XX
  else if s0 <? 0xE0 then SZ 2 locb hicb
  else if s0 =? 0xE0 then SZ 3 0xA0 hicb
  else if s0 <? 0xED then SZ 3 locb hicb
  else if s0 =? 0xED then SZ 3 locb 0x9F
  else if s0 <? 0xF0 then SZ 3 locb hicb
  else if s0 =? 0xF0 then SZ 4 0x90 hicb
  else if s0 <? 0xF4 then SZ 4 locb hicb
  else if s0 =? 0xF4 then SZ 4 locb 0x8F
  else XX.

(** [utf8.DecodeRuneInString]: the first rune of [s] and its width in bytes;
    [(RuneError, 0)] on the empty string and [(RuneError, 1)] on an invalid
    or truncated sequence. *)
Definition DecodeRuneInString (s : bytes) : Z * nat :=
  match s with
  | [] => (RuneError, 0%nat)
  | c0 :: s' =>
    let s0 := byteZ c0 in
    match first s0 with
    | AS => (s0, 1%nat)
    | XX => (RuneError, 1%nat)
    | SZ sz lo hi =>
      if (length s <? sz)%nat then (RuneError, 1%nat) else
      match s' with
      | [] => (RuneError, 1%nat)
      | c1 :: s'' =>
        let s1 := byteZ c1 in
        if (s1 <? lo) || (hi <? s1) then (RuneError, 1%nat) else
        if (sz <=? 2)%nat then
          (Z.lor (Z.shiftl (Z.land s0 mask2) 6) (Z.land s1 maskx), 2%nat)
        else
        match s'' with
        | [] => (RuneError, 1%nat)
        | c2 :: s''' =>
          let s2 := byteZ c2 in
          if (s2 <? locb) || (hicb <? s2) then (RuneError, 1%nat) else
          if (sz <=? 3)%nat then
            (Z.lor (Z.lor (Z.shiftl (Z.land s0 mask3) 12)
                          (Z.shiftl (Z.land s1 maskx) 6))
                   (Z.land s2 maskx), 3%nat)
          else
          match s''' with
          | [] => (RuneError, 1%nat)
          | c3 :: _ =>
            let s3 := byteZ c3 in
            if (s3 <? locb) || (hicb <? s3) then (RuneError, 1%nat) else
            (Z.lor (Z.lor (Z.lor (Z.shiftl (Z.land s0 mask4) 18)
                                 (Z.shiftl (Z.land s1 maskx) 12))
                          (Z.shiftl (Z.land s2 maskx) 6))
                   (Z.land s3 maskx), 4%nat)
          end
        end
      end
    end
  end.

(** [utf8.RuneStart]: the byte is not a continuation byte. *)
Definition RuneStart (b : ascii) : bool :=
  negb (Z.land (byteZ b) 0xC0 =? 0x80).

(** The loop of [DecodeLastRuneInString] that walks back from [start] to the
    nearest byte that can start a rune, but not below [lim]:
    [for start--; start >= lim; start-- { if RuneStart(s[start]) { break } }],
    entered after the first [start--]. The loop takes at most
    [start - lim + 1] turns; [n] bounds them (lemma [backToStart_fuel]). *)
Fixpoint backToStart (n : nat) (s : bytes) (lim start : Z) : Z :=
  match n with
  | O => start
  | S n' =>
    if start <? lim then start
    else match s !! Z.to_nat start with
         | Some b => if RuneStart b then start
                     else backToStart n' s lim (start - 1)
         | None => start
         end
  end.

(** [utf8.DecodeLastRuneInString]: the last rune of [s] and its width. *)
Definition DecodeLastRuneInString (s : bytes) : Z * nat :=
  let end_ := Z.of_nat (length s) in
  match last s with
  | None => (RuneError, 0%nat)
  | Some b =>
    let r := byteZ b in
    if r <? RuneSelf then (r, 1%nat) else
    let lim := Z.max 0 (end_ - Z.of_nat UTFMax) in
    let start := backToStart (length s) s lim (end_ - 1 - 1) in
    let start := Z.max start 0 in
    let '(r, size) := DecodeRuneInString (drop (Z.to_nat start) s) in
    if negb (start + Z.of_nat size =? end_) then (RuneError, 1%nat)
    else (r, size)
  end.

(** [utf8.AppendRune] on an empty buffer: the UTF-8 encoding of [r]. A rune
    out of range or a surrogate half is written as [RuneError]. [r] is seen as
    a [uint32], so a negative rune is out of range too. *)
Definition AppendRune (r : Z) : bytes :=
  let i := r mod 2 ^ 32 in
  if i <=? rune1Max then [byte_of_Z r]
  else if i <=? rune2Max then
    [byte_of_Z (Z.lor t2 (byteZ (byte_of_Z (Z.shiftr r 6))));
     byte_of_Z (Z.lor tx (Z.land (byteZ (byte_of_Z r)) maskx))]
  else
    let r3 := if (MaxRune <? i) || ((surrogateMin <=? i) && (i <=? surrogateMax))
              then Some RuneError
              else if i <=? rune3Max then Some r else None in
    match r3 with
    | Some r =>
      [byte_of_Z (Z.lor t3 (byteZ (byte_of_Z (Z.shiftr r 12))));
       byte_of_Z (Z.lor tx (Z.land (byteZ (byte_of_Z (Z.shiftr r 6))) maskx));
       byte_of_Z (Z.lor tx (Z.land (byteZ (byte_of_Z r)) maskx))]
    | None =>
      [byte_of_Z (Z.lor t4 (byteZ (byte_of_Z (Z.shiftr r 18))));
       byte_of_Z (Z.lor tx (Z.land (byteZ (byte_of_Z (Z.shiftr r 12))) maskx));
       byte_of_Z (Z.lor tx (Z.land (byteZ (byte_of_Z (Z.shiftr r 6))) maskx));
       byte_of_Z (Z.lor tx (Z.land (byteZ (byte_of_Z r)) maskx))]
    end.

(** The runes of [for i, c := range s], each with the index of its first
    byte. [skip] counts the bytes of the current rune still to pass. *)
Fixpoint rangeFrom (i skip : nat) (s : bytes) : list (nat * Z) :=
  match s with
  | [] => []
  | _ :: s' =>
    match skip with
    | S k => rangeFrom (S i) k s'
    | O => let '(c, width) := DecodeRuneInString s in
           (i, c) :: rangeFrom (S i) (width - 1) s'
    end
  end.

Definition range (s : bytes) : list (nat * Z) := rangeFrom 0 0 s.

End Utf8.

(** ** Package unicode *)

Module Unicode.

Definition MaxASCII : Z := 0x7F.
Definition MaxLatin1 : Z := 0xFF.

(** [unicode.IsSpace]: the Latin-1 switch, then the rows of the table
    [White_Space] above Latin-1. *)
Definition IsSpace (r : Z) : bool :=
  if r <=? MaxLatin1 then
    (r =? 0x09) || (r =? 0x0A) || (r =? 0x0B) || (r =? 0x0C) || (r =? 0x0D)
    || (r =? 0x20) || (r =? 0x85) || (r =? 0xA0)
  else
    (r =? 0x1680) || ((0x2000 <=? r) && (r <=? 0x200A))
    || ((0x2028 <=? r) && (r <=? 0x2029)) || (r =? 0x202F) || (r =? 0x205F)
    || (r =? 0x3000).

(** [unicode.ToLower]. Above ASCII Go looks the rune up in the table
    [CaseRanges], [To(LowerCase, r)]; the table is data of Go's library and is
    the parameter [toLowerCase] here. *)
Definition ToLower (toLowerCase : Z -> Z) (r : Z) : Z :=
  if r <=? MaxASCII then
    if (0x41 <=? r) && (r <=? 0x5A) then r + (0x61 - 0x41) else r
  else toLowerCase r.

End Unicode.

(** ** Package strings *)

Module Strings.

(** [len(s) >= len(prefix) && s[:len(prefix)] == prefix] *)
Definition HasPrefix (s prefix : bytes) : bool :=
  (length prefix <=? length s)%nat
  && bool_decide (take (length prefix) s = prefix).

(** [len(s) >= len(suffix) && s[len(s)-len(suffix):] == suffix] *)
Definition HasSuffix (s suffix : bytes) : bool :=
  (length suffix <=? length s)%nat
  && bool_decide (drop (length s - length suffix) s = suffix).

(** The table [asciiSpace]. *)
Definition asciiSpace (c : ascii) : bool :=
  let z := byteZ c in
  (z =? 0x09) || (z =? 0x0A) || (z =? 0x0B) || (z =? 0x0C) || (z =? 0x0D)
  || (z =? 0x20).

(** [indexFunc]: the index of the first rune [r] with [f r = truth], or -1. *)
Definition indexFunc (s : bytes) (f : Z -> bool) (truth : bool) : Z :=
  match find (fun ir => Bool.eqb (f ir.2) truth) (Utf8.range s) with
  | Some (i, _) => Z.of_nat i
  | None => -1
  end.

(** The loop of [lastIndexFunc], [for i := len(s); i > 0; ...]. Every turn
    lowers [i], so [length s] turns are enough (lemma [lastIndexLoop_fuel]). *)
Fixpoint lastIndexLoop (n : nat) (s : bytes) (f : Z -> bool) (truth : bool)
    (i : nat) : Z :=
  match n with
  | O => -1
  | S n' =>
    if (i =? 0)%nat then -1 else
    let '(r, size) := Utf8.DecodeLastRuneInString (take i s) in
    let i := (i - size)%nat in
    if Bool.eqb (f r) truth then Z.of_nat i
    else lastIndexLoop n' s f truth i
  end.

Definition lastIndexFunc (s : bytes) (f : Z -> bool) (truth : bool) : Z :=
  lastIndexLoop (length s) s f truth (length s).

Definition TrimLeftFunc (s : bytes) (f : Z -> bool) : bytes :=
  let i := indexFunc s f false in
  if i =? -1 then [] else drop (Z.to_nat i) s.

Definition TrimRightFunc (s : bytes) (f : Z -> bool) : bytes :=
  let i := lastIndexFunc s f false in
  let i :=
    match s !! Z.to_nat i with
    | Some b =>
      if (0 <=? i) && (Utf8.RuneSelf <=? byteZ b) then
        i + Z.of_nat (Utf8.DecodeRuneInString (drop (Z.to_nat i) s)).2
      else i + 1
    | None => i + 1
    end in
  take (Z.to_nat i) s.

Definition TrimFunc (s : bytes) (f : Z -> bool) : bytes :=
  TrimRightFunc (TrimLeftFunc s f) f.

(** The second loop of [TrimSpace], on the reversed slice [s[start:stop]]:
    it looks at the last byte, [s[stop-1]]. *)
Fixpoint trimSpaceStop (rs : bytes) : bytes :=
  match rs with
  | [] => []
  | c :: rs' =>
    if Utf8.RuneSelf <=? byteZ c then TrimRightFunc (rev rs) Unicode.IsSpace
    else if asciiSpace c then trimSpaceStop rs'
    else rev rs
  end.

(** [strings.TrimSpace]; the argument of the recursion is [s[start:]]. *)
Fixpoint TrimSpace (s : bytes) : bytes :=
  match s with
  | [] => trimSpaceStop (rev s)
  | c :: s' =>
    if Utf8.RuneSelf <=? byteZ c then TrimFunc s Unicode.IsSpace
    else if asciiSpace c then TrimSpace s'
    else trimSpaceStop (rev s)
  end.

(** What [strings.Map] writes for a mapped rune: nothing when it is
    negative. *)
Definition writeMapped (r : Z) : bytes :=
  if 0 <=? r then Utf8.AppendRune r else [].

(** The second loop of [Map], over the rest of the string. *)
Definition mapRest (mapping : Z -> Z) (skip : nat) (s : bytes) : bytes :=
  flat_map (fun ic => writeMapped (mapping ic.2)) (Utf8.rangeFrom 0 skip s).

(** [strings.Map]. The first loop passes over the runes the mapping leaves as
    they are and keeps their bytes; from the first rune that changes (an
    invalid byte counts as a change) the output is written rune by rune. The
    width of a valid rune is the one [RuneLen] gives. *)
Fixpoint mapFrom (mapping : Z -> Z) (skip : nat) (s : bytes) : bytes :=
  match s with
  | [] => []
  | b :: s' =>
    match skip with
    | S k => b :: mapFrom mapping k s'
    | O =>
      let '(c, width) := Utf8.DecodeRuneInString s in
      let r := mapping c in
      if (r =? c) && negb ((c =? Utf8.RuneError) && (width =? 1)%nat)
      then b :: mapFrom mapping (width - 1) s'
      else writeMapped r ++ mapRest mapping (width - 1) s'
    end
  end.

Definition Map (mapping : Z -> Z) (s : bytes) : bytes := mapFrom mapping 0 s.

Definition isUpperByte (c : ascii) : bool :=
  (0x41 <=? byteZ c) && (byteZ c <=? 0x5A).

Definition lowerByte (c : ascii) : ascii :=
  if isUpperByte c then byte_of_Z (byteZ c + (0x61 - 0x41)) else c.

(** [strings.ToLower]: a string of ASCII bytes is returned as it is when it
    has no upper-case letter and is lowered byte by byte otherwise; any other
    string goes through [Map(unicode.ToLower, s)]. *)
Definition ToLower (toLowerCase : Z -> Z) (s : bytes) : bytes :=
  let isASCII := forallb (fun c => byteZ c <? Utf8.RuneSelf) s in
  let hasUpper := existsb isUpperByte s in
  if isASCII then
    if negb hasUpper then s else map lowerByte s
  else Map (Unicode.ToLower toLowerCase) s.

End Strings.

(** ** Package net/http: the response writer *)

Module Http.

(** The program reaches an [http.ResponseWriter] through three methods. A
    writer is modelled by the calls it has received, in order. What a writer
    does with a call is the writer's matter: the program hands over any
    status code (the writers of [net/http] take the codes from 100 to
    999). *)
Inductive call :=
| HeaderSet (key value : bytes)
| WriteHeader (code : Z)
| Write (p : bytes).

Abbreviation ResponseWriter := (list call).



End Http.

(** ** Package fmt *)

Module Fmt.
















End Fmt.

(** ** Package bbolt *)

Module Bbolt.

Inductive error :=
| ErrTxNotWritable
| ErrBucketNameRequired
| ErrKeyRequired
| ErrKeyTooLarge
| ErrValueTooLarge
| ErrIncompatibleValue.

(** What a key of a bucket holds: a value, or a nested bucket (whose content
    this program never reads). *)
Inductive entry :=
| Value (v : bytes)
| SubBucket.

(** A database is its top-level buckets by name. The handle is open for the
    life of the process ([main] opens it and nothing closes it), and the
    storage engine is taken to begin and commit every transaction. *)
Abbreviation DB := (gmap bytes (gmap bytes entry)).

Record Tx := mkTx { writable : bool; root : gmap bytes (gmap bytes entry) }.

Definition MaxKeySize : Z := 32768.
Definition MaxValueSize : Z := 2 ^ 31 - 2.

(** [tx.Bucket(name)]: the bucket, named by its key in the transaction, or
    [nil]. *)
Definition Bucket (tx : Tx) (name : bytes) : option bytes :=
  match root tx !! name with
  | Some _ => Some name
  | None => None
  end.

(** [tx.CreateBucketIfNotExists(name)] *)
Definition CreateBucketIfNotExists (tx : Tx) (name : bytes)
    : Tx * (error + bytes) :=
  if negb (writable tx) then (tx, inl ErrTxNotWritable)
  else if (length name =? 0)%nat then (tx, inl ErrBucketNameRequired)
  else match root tx !! name with
       | Some _ => (tx, inr name)
       | None => (mkTx (writable tx) (<[name := ∅]> (root tx)), inr name)
       end.

(** [buck.Get(key)]: [nil] when the key is absent or holds a nested bucket. *)
Definition Get (tx : Tx) (buck key : bytes) : option bytes :=
  match root tx !! buck with
  | Some b => match b !! key with
              | Some (Value v) => Some v
              | _ => None
              end
  | None => None
  end.

(** [buck.Put(key, value)] *)
Definition Put (tx : Tx) (buck key value : bytes) : Tx * option error :=
  if negb (writable tx) then (tx, Some ErrTxNotWritable)
  else if (length key =? 0)%nat then (tx, Some ErrKeyRequired)
  else if MaxKeySize <? Z.of_nat (length key) then (tx, Some ErrKeyTooLarge)
  else if MaxValueSize <? Z.of_nat (length value)
       then (tx, Some ErrValueTooLarge)
  else match root tx !! buck with
       | Some b =>
         match b !! key with
         | Some SubBucket => (tx, Some ErrIncompatibleValue)
         | _ => (mkTx (writable tx)
                      (<[buck := <[key := Value value]> b]> (root tx)), None)
         end
       | None => (tx, None)
       end.

(** [buck.Delete(key)] *)
Definition Delete (tx : Tx) (buck key : bytes) : Tx * option error :=
  if negb (writable tx) then (tx, Some ErrTxNotWritable)
  else match root tx !! buck with
       | Some b =>
         match b !! key with
         | None => (tx, None)
         | Some SubBucket => (tx, Some ErrIncompatibleValue)
         | Some (Value _) =>
           (mkTx (writable tx) (<[buck := delete key b]> (root tx)), None)
         end
       | None => (tx, None)
       end.

(** [db.Update(fn)]: [fn] runs in a read-write transaction, which is
    committed when [fn] returns [nil] and rolled back otherwise. *)
Definition Update (db : DB) (fn : Tx -> Tx * option error)
    : DB * option error :=
  let '(tx, err) := fn (mkTx true db) in
  match err with
  | None => (root tx, None)
  | Some e => (db, Some e)
  end.

(** [db.View(fn)]: [fn] runs in a read-only transaction, always rolled
    back. [fn] also hands back what it assigned to the variables it
    captured. *)
Definition View {A : Type} (db : DB) (fn : Tx -> Tx * (A * option error))
    : DB * (A * option error) :=
  let '(_, res) := fn (mkTx false db) in (db, res).

End Bbolt.

(** ** gesedels.go

    Parts two to five of the program. The database handle is passed to the
    functions of part three, as in the source; the global [DB] of part one
    and [main] of part six, which open the database and start the server,
    are not part of the properties below. *)

(** The byte of ["\n"]. *)
Definition nl : ascii := "010"%char.

(** The lower-case mapping of [unicode.CaseRanges] above ASCII,
    [unicode.To(unicode.LowerCase, r)]: data of Go's library, which the
    program is read against. *)
Class CaseTable := toLowerCase : Z -> Z.

Section Gesedels.

Context {caseTable : CaseTable}.

(** *** part two: string sanitisation functions *)

(** IsPrivate returns true if a name string is surrounded with two leading
    underscores. *)
Definition IsPrivate (name : bytes) : bool :=
  Strings.HasPrefix name (str "__") && Strings.HasSuffix name (str "__").

(** PairKey returns a lowercase pair key string from user and name
    strings. *)
Definition PairKey (user name : bytes) : bytes :=
  let user := Strings.ToLower toLowerCase user in
  let name := Strings.ToLower toLowerCase name in
  user ++ str ":" ++ name.

(** PairValue returns a whitespace-trimmed pair value string. *)
Definition PairValue (text : bytes) : bytes :=
  Strings.TrimSpace text ++ [nl].

(** *** part three: database handling functions *)

(** DeletePair deletes an existing pair from a database. *)
Definition DeletePair (db : Bbolt.DB) (user name : bytes)
    : Bbolt.DB * option Bbolt.error :=
  Bbolt.Update db (fun tx =>
    match Bbolt.Bucket tx (str "main") with
    | Some buck => Bbolt.Delete tx buck (PairKey user name)
    | None => (tx, None)
    end).

(** GetPair returns the value of an existing pair from a database and a
    boolean indicating if the pair exists.

    The results [pval] and [okay] are read once [View] has run the closure
    that assigns them, as the repository's test of [GetPair] expects. The
    conversion [string(bytes)] of [nil] is the empty string. *)
Definition GetPair (db : Bbolt.DB) (user name : bytes)
    : Bbolt.DB * (bytes * bool * option Bbolt.error) :=
  Bbolt.View db (fun tx =>
    match Bbolt.Bucket tx (str "main") with
    | Some buck =>
      let bytes := Bbolt.Get tx buck (PairKey user name) in
      (tx, (default [] bytes, bool_decide (is_Some bytes), None))
    | None => (tx, ([], false, None))
    end).

(** SetPair sets the value of a new or existing pair in a database. *)
Definition SetPair (db : Bbolt.DB) (user name pval : bytes)
    : Bbolt.DB * option Bbolt.error :=
  Bbolt.Update db (fun tx =>
    let '(tx, res) := Bbolt.CreateBucketIfNotExists tx (str "main") in
    match res with
    | inl err => (tx, Some err)
    | inr buck => Bbolt.Put tx buck (PairKey user name) (PairValue pval)
    end).

End Gesedels.

(** *** part four: http response functions *)




(** *** part five: server endpoint functions *)



(** The lower-case rows of [unicode.CaseRanges] for Latin-1,
    [{0x00C0, 0x00D6, d{0, 32, 0}}] and [{0x00D8, 0x00DE, d{0, 32, 0}}]: a
    table to run the definitions with. *)
Definition latin1 (r : Z) : Z :=
  if ((0xC0 <=? r) && (r <=? 0xD6)) || ((0xD8 <=? r) && (r <=? 0xDE))
  then r + 32 else r.

(** * Vocabulary of the properties *)

(** ** Runes *)

(** A rune that Go encodes as it is: in range and no surrogate half. *)
Definition validRune (r : Z) : Prop :=
  0 <= r <= Utf8.MaxRune /\ ~ (Utf8.surrogateMin <= r <= Utf8.surrogateMax).

(** A continuation byte. *)
Definition cont (c : ascii) : Prop := 0x80 <= byteZ c <= 0xBF.

(** The head of a string is no continuation byte, if there is one. *)
Definition startsRune (v : bytes) : Prop :=
  match v with
  | [] => True
  | b :: _ => Utf8.RuneStart b = true
  end.

(** The outcomes of the decoder, with the bit operations as arithmetic. *)
Inductive decoded : bytes -> Z -> nat -> Prop :=
| dec_ascii c0 s :
    byteZ c0 < 0x80 -> decoded (c0 :: s) (byteZ c0) 1
| dec_two c0 c1 s lo hi :
    Utf8.first (byteZ c0) = Utf8.SZ 2 lo hi -> lo <= byteZ c1 <= hi ->
    decoded (c0 :: c1 :: s) ((byteZ c0 - 0xC0) * 64 + (byteZ c1 - 0x80)) 2
| dec_three c0 c1 c2 s lo hi :
    Utf8.first (byteZ c0) = Utf8.SZ 3 lo hi -> lo <= byteZ c1 <= hi -> cont c2 ->
    decoded (c0 :: c1 :: c2 :: s)
            ((byteZ c0 - 0xE0) * 4096 + (byteZ c1 - 0x80) * 64
             + (byteZ c2 - 0x80)) 3
| dec_four c0 c1 c2 c3 s lo hi :
    Utf8.first (byteZ c0) = Utf8.SZ 4 lo hi -> lo <= byteZ c1 <= hi ->
    cont c2 -> cont c3 ->
    decoded (c0 :: c1 :: c2 :: c3 :: s)
            ((byteZ c0 - 0xF0) * 262144 + (byteZ c1 - 0x80) * 4096
             + (byteZ c2 - 0x80) * 64 + (byteZ c3 - 0x80)) 4
| dec_error s :
    s <> [] -> decoded s Utf8.RuneError 1.

(** The runes of a string, in order. *)
Definition runes (s : bytes) : list Z := map snd (Utf8.range s).

(** The encodings of the mapped runes, one after the other. *)
Definition encMap (m : Z -> Z) (s : bytes) : bytes :=
  flat_map (fun r => Strings.writeMapped (m r)) (runes s).

(** ** Lower case *)

(** A string of ASCII bytes only. *)
Definition isASCII (s : bytes) : bool :=
  forallb (fun c => byteZ c <? Utf8.RuneSelf) s.

(** What the program needs of the case table: above ASCII the lower case of
    a rune is a rune, and is its own lower case. *)
Definition lowerCaseTable (tab : Z -> Z) : Prop :=
  forall r, validRune r -> Unicode.MaxASCII < r ->
            validRune (tab r) /\ Unicode.ToLower tab (tab r) = tab r.

(** A string in lower case: the encodings of runes that are their own lower
    case. *)
Definition lowered (tab : Z -> Z) (t : bytes) : Prop :=
  exists rs, Forall (fun r => validRune r /\ Unicode.ToLower tab r = r) rs
             /\ t = flat_map Utf8.AppendRune rs.

(** ** White space *)

(** The first rune of [t] is a space; the last rune of [t] is a space; every
    rune of [t] is a space. Spaces are the runes of [unicode.IsSpace], the
    ones [TrimSpace] removes: the ASCII ones are tab, newline, vertical tab,
    form feed, carriage return and space. *)
Definition leadingSpace (t : bytes) : bool :=
  Unicode.IsSpace (Utf8.DecodeRuneInString t).1.

Definition trailingSpace (t : bytes) : bool :=
  Unicode.IsSpace (Utf8.DecodeLastRuneInString t).1.

Definition allSpace (t : bytes) : bool :=
  forallb (fun ir => Unicode.IsSpace ir.2) (Utf8.range t).

Definition trimmed (t : bytes) : Prop :=
  leadingSpace t = false /\ trailingSpace t = false.

(** A normalised value: text with no space at either end, then one
    newline. *)
Definition normalised (v : bytes) : Prop :=
  exists t, v = t ++ [nl] /\ trimmed t.

(** Where [TrimRightFunc] cuts, from the index [lastIndexFunc] gave. *)
Definition rightEnd (s : bytes) (i : Z) : Z :=
  match s !! Z.to_nat i with
  | Some b =>
    if (0 <=? i) && (Utf8.RuneSelf <=? byteZ b) then
      i + Z.of_nat (Utf8.DecodeRuneInString (drop (Z.to_nat i) s)).2
    else i + 1
  | None => i + 1
  end.

(** A string of spaces: the encodings of space runes, one after the
    other. *)
Definition spaces (x : bytes) : Prop :=
  exists rs, Forall (fun r => validRune r /\ Unicode.IsSpace r = true) rs
             /\ x = flat_map Utf8.AppendRune rs.

(** A string of ASCII space bytes. *)
Definition asciiSpaces (x : bytes) : bool :=
  forallb (fun c => (byteZ c <? 0x80) && Strings.asciiSpace c) x.

(** ** The pair store *)

Section Store.

Context {caseTable : CaseTable}.

(** The value stored for a pair, if any. *)
Definition storedValue (db : Bbolt.DB) (user name : bytes) : option bytes :=
  match db !! str "main" with
  | Some b => match b !! PairKey user name with
              | Some (Bbolt.Value v) => Some v
              | _ => None
              end
  | None => None
  end.

(** The operations that write to the store, and the store they leave (the
    store is as it was when the operation fails). *)
Inductive op :=
| OpSet (user name pval : bytes)
| OpDelete (user name : bytes).

Definition applyOp (db : Bbolt.DB) (o : op) : Bbolt.DB :=
  match o with
  | OpSet user name pval => (SetPair db user name pval).1
  | OpDelete user name => (DeletePair db user name).1
  end.

(** The store reached from the empty store by a sequence of operations. *)
Definition runOps (ops : list op) : Bbolt.DB := foldl applyOp ∅ ops.

(** Every key of the bucket "main" holds a normalised value. *)
Definition valuesNormalised (db : Bbolt.DB) : Prop :=
  forall b key e,
    db !! str "main" = Some b -> b !! key = Some e ->
    exists v, e = Bbolt.Value v /\ normalised v.

End Store.

(** ** The pairs of a store *)

Section Pairs.

Context {caseTable : CaseTable}.

(** The entry under a key of the bucket "main". *)
Definition entryAt (db : Bbolt.DB) (key : bytes) : option Bbolt.entry :=
  b ← db !! str "main"; b !! key.


(** The pairs of a store as a map from keys to values: the values of the
    bucket "main", nested buckets left out. *)
Definition pairsOf (db : Bbolt.DB) : gmap bytes bytes :=
  match db !! str "main" with
  | Some b => omap (fun e => match e with
                             | Bbolt.Value v => Some v
                             | Bbolt.SubBucket => None
                             end) b
  | None => ∅
  end.

(** What an operation does to a map of pairs: a [SetPair] whose key or value
    is too large does nothing. *)
Definition mapOp (m : gmap bytes bytes) (o : op) : gmap bytes bytes :=
  match o with
  | OpSet user name pval =>
    if (Bbolt.MaxKeySize <? Z.of_nat (length (PairKey user name)))
       || (Bbolt.MaxValueSize <? Z.of_nat (length (PairValue pval)))
    then m
    else <[PairKey user name := PairValue pval]> m
  | OpDelete user name => delete (PairKey user name) m
  end.

End Pairs.

(** The database of the repository's tests, [mockDB]: the bucket "main"
    with the pairs of [mockPairs]. *)
Definition mockDB : Bbolt.DB :=
  {[ str "main" :=
       {[ str "0000:alpha" := Bbolt.Value (str "Alpha." ++ [nl]);
          str "0000:bravo" := Bbolt.Value (str "Bravo." ++ [nl]) ]} ]}.

(** ** The response writers *)




(** * Properties *)

(** ** Bytes and bits *)

Lemma byteZ_range (c : ascii) : 0 <= byteZ c < 256.
Proof.
  unfold byteZ. pose proof (N_ascii_bounded c). lia.
Qed.

Lemma byte_of_Z_byteZ (c : ascii) : byte_of_Z (byteZ c) = c.
Proof.
  unfold byte_of_Z, byteZ. pose proof (N_ascii_bounded c).
  rewrite Z.mod_small by lia. rewrite N2Z.id. apply ascii_N_embedding.
Qed.

Lemma byteZ_byte_of_Z (z : Z) : byteZ (byte_of_Z z) = z mod 256.
Proof.
  unfold byte_of_Z, byteZ. pose proof (Z.mod_pos_bound z 256 ltac:(lia)).
  rewrite N_ascii_embedding; lia.
Qed.

Lemma lor_add (a b n : Z) :
  0 <= n -> 0 <= a -> 0 <= b < 2 ^ n -> Z.lor (a * 2 ^ n) b = a * 2 ^ n + b.
Proof.
  intros Hn Ha Hb.
  assert (Hland : Z.land (a * 2 ^ n) b = 0).
  { apply Z.bits_inj'; intros k Hk. rewrite Z.land_spec, Z.bits_0.
    destruct (Z.lt_ge_cases k n).
    - rewrite Z.mul_pow2_bits_low by lia. reflexivity.
    - destruct (Z.eq_dec b 0) as [->|]; [rewrite Z.bits_0; apply andb_false_r|].
      assert (Z.log2 b < n) by (apply Z.log2_lt_pow2; lia).
      rewrite (Z.bits_above_log2 b k), ?andb_false_r; lia. }
  rewrite <- Z.lxor_lor, <- Z.add_nocarry_lxor; auto.
Qed.

Ltac bools :=
  repeat match goal with
  | H : (_ <? _) = true |- _ => apply Z.ltb_lt in H
  | H : (_ <? _) = false |- _ => apply Z.ltb_ge in H
  | H : (_ <=? _) = true |- _ => apply Z.leb_le in H
  | H : (_ <=? _) = false |- _ => apply Z.leb_gt in H
  | H : (_ =? _) = true |- _ => apply Z.eqb_eq in H
  | H : (_ =? _) = false |- _ => apply Z.eqb_neq in H
  | H : (_ <? _)%nat = true |- _ => apply Nat.ltb_lt in H
  | H : (_ <? _)%nat = false |- _ => apply Nat.ltb_ge in H
  | H : (_ <=? _)%nat = true |- _ => apply Nat.leb_le in H
  | H : (_ <=? _)%nat = false |- _ => apply Nat.leb_gt in H
  | H : (_ =? _)%nat = true |- _ => apply Nat.eqb_eq in H
  | H : (_ =? _)%nat = false |- _ => apply Nat.eqb_neq in H
  | H : _ || _ = true |- _ => apply orb_true_iff in H; destruct H
  | H : _ || _ = false |- _ => apply orb_false_iff in H; destruct H
  | H : _ && _ = true |- _ => apply andb_true_iff in H; destruct H
  | H : _ && _ = false |- _ => apply andb_false_iff in H; destruct H
  | H : negb _ = true |- _ => apply negb_true_iff in H
  | H : negb _ = false |- _ => apply negb_false_iff in H
  end.

(** The rows of [first]: a sequence has two to four bytes, and its second
    byte is a continuation byte. *)
Lemma first_SZ (s0 : Z) (sz : nat) (lo hi : Z) :
  Utf8.first s0 = Utf8.SZ sz lo hi ->
  (2 <= sz <= 4)%nat /\ 0x80 <= lo /\ hi <= 0xBF /\ 0xC2 <= s0 <= 0xF4.
Proof.
  unfold Utf8.first, Utf8.locb, Utf8.hicb.
  repeat case_match; intros; simplify_eq; bools; lia.
Qed.

Lemma first_AS (s0 : Z) : Utf8.first s0 = Utf8.AS <-> s0 < 0x80.
Proof.
  unfold Utf8.first. repeat case_match; split; intros; simplify_eq; bools;
    first [reflexivity | lia].
Qed.

Lemma Decode_ascii (c : ascii) (s : bytes) :
  byteZ c < 0x80 -> Utf8.DecodeRuneInString (c :: s) = (byteZ c, 1%nat).
Proof.
  intros H. unfold Utf8.DecodeRuneInString.
  apply first_AS in H. by rewrite H.
Qed.

Lemma Decode_width (s : bytes) :
  s <> [] ->
  (1 <= (Utf8.DecodeRuneInString s).2 <= length s)%nat /\ ((Utf8.DecodeRuneInString s).2 <= 4)%nat.
Proof.
  destruct s as [|c0 s]; [done|]. intros _.
  unfold Utf8.DecodeRuneInString.
  destruct (Utf8.first (byteZ c0)) as [| |sz lo hi] eqn:F; cbn; try lia.
  repeat case_match; cbn [snd length] in *; bools; lia.
Qed.

(** A byte that can start a rune is no continuation byte. *)
Lemma RuneStart_eq (b : ascii) :
  Utf8.RuneStart b = (byteZ b <? 0x80) || (0xBF <? byteZ b).
Proof.
  destruct b as [[] [] [] [] [] [] [] []]; reflexivity.
Qed.

Lemma RuneStart_spec (b : ascii) :
  Utf8.RuneStart b = true <-> (byteZ b < 0x80 \/ 0xBF < byteZ b).
Proof.
  rewrite RuneStart_eq, orb_true_iff, Z.ltb_lt, Z.ltb_lt. reflexivity.
Qed.

(** Bytes after a string change its first rune only if they continue it. *)
Lemma Decode_app_start (u v : bytes) :
  u <> [] -> startsRune v ->
  Utf8.DecodeRuneInString (u ++ v) = Utf8.DecodeRuneInString u.
Proof.
  intros Hu Hv.
  destruct u as [|c0 u]; [done|].
  unfold Utf8.DecodeRuneInString. cbn [app].
  destruct (Utf8.first (byteZ c0)) as [| |sz lo hi] eqn:F; try reflexivity.
  destruct (first_SZ _ _ _ _ F) as (Hsz & Hlo & Hhi & _).
  unfold Utf8.locb, Utf8.hicb.
  destruct u as [|c1 [|c2 [|c3 u]]]; destruct v as [|d v]; cbn [app length];
    try (apply RuneStart_spec in Hv);
    repeat case_match; bools; simplify_eq; try reflexivity; try lia.
Qed.

(** A rune that was decoded from a valid sequence is decoded from any
    longer string too. *)
Lemma Decode_app_valid (u v : bytes) (r : Z) (w : nat) :
  Utf8.DecodeRuneInString u = (r, w) ->
  u <> [] -> (r, w) <> (Utf8.RuneError, 1%nat) ->
  Utf8.DecodeRuneInString (u ++ v) = (r, w).
Proof.
  intros Hd Hu Hne.
  destruct u as [|c0 u]; [done|].
  revert Hd. unfold Utf8.DecodeRuneInString. cbn [app].
  destruct (Utf8.first (byteZ c0)) as [| |sz lo hi] eqn:F; try done.
  destruct (first_SZ _ _ _ _ F) as (Hsz & Hlo & Hhi & _).
  unfold Utf8.locb, Utf8.hicb.
  destruct u as [|c1 [|c2 [|c3 u]]]; cbn [app length];
    repeat case_match; bools; intros; simplify_eq; try reflexivity; try lia.
Qed.

Lemma backToStart_le (n : nat) (s : bytes) (lim start : Z) :
  Utf8.backToStart n s lim start <= start.
Proof.
  revert start. induction n as [|n IH]; intros start; cbn; [lia|].
  repeat case_match; try lia. specialize (IH (start - 1)). lia.
Qed.

(** More turns than the loop takes change nothing. *)
Lemma backToStart_fuel (s : bytes) (lim : Z) (n m : nat) :
  forall start : Z,
    start - lim < Z.of_nat n -> start - lim < Z.of_nat m ->
    Utf8.backToStart n s lim start = Utf8.backToStart m s lim start.
Proof.
  revert m. induction n as [|n IH]; intros m start Hn Hm.
  - destruct m as [|m]; [reflexivity|]. cbn.
    replace (start <? lim) with true by (symmetry; apply Z.ltb_lt; lia). done.
  - destruct m as [|m]; cbn.
    + replace (start <? lim) with true by (symmetry; apply Z.ltb_lt; lia). done.
    + repeat case_match; try reflexivity. apply IH; lia.
Qed.

(** The turns [DecodeLastRuneInString] allows are enough. *)
Lemma backToStart_enough (s : bytes) (n : nat) :
  (length s <= n)%nat ->
  let end_ := Z.of_nat (length s) in
  let lim := Z.max 0 (end_ - Z.of_nat Utf8.UTFMax) in
  Utf8.backToStart n s lim (end_ - 1 - 1)
  = Utf8.backToStart (length s) s lim (end_ - 1 - 1).
Proof.
  intros Hn end_ lim. apply backToStart_fuel; unfold Utf8.UTFMax in *; lia.
Qed.

Lemma DecodeLast_ascii (s : bytes) (c : ascii) :
  byteZ c < 0x80 -> Utf8.DecodeLastRuneInString (s ++ [c]) = (byteZ c, 1%nat).
Proof.
  intros Hc. unfold Utf8.DecodeLastRuneInString. rewrite last_snoc.
  unfold Utf8.RuneSelf. apply Z.ltb_lt in Hc. by rewrite Hc.
Qed.

(** The last rune: either a sequence that the forward decoder reads at the
    end of the string, or the error rune for a last byte above ASCII. *)
Lemma DecodeLast_spec (s : bytes) (r : Z) (size : nat) :
  s <> [] ->
  Utf8.DecodeLastRuneInString s = (r, size) ->
  (1 <= size <= length s)%nat
  /\ (Utf8.DecodeRuneInString (drop (length s - size) s) = (r, size)
      \/ (r = Utf8.RuneError /\ size = 1%nat
          /\ exists c, last s = Some c /\ 0x80 <= byteZ c)).
Proof.
  intros Hs. unfold Utf8.DecodeLastRuneInString.
  destruct (last s) as [b|] eqn:Hlast; [|by apply last_None in Hlast].
  apply last_Some in Hlast as [s' ->].
  rewrite length_app. cbn [length].
  destruct (byteZ b <? Utf8.RuneSelf) eqn:Hb.
  - intros [= <- <-]. split; [lia|]. left.
    replace (length s' + 1 - 1)%nat with (length s') by lia.
    rewrite drop_app_length. apply Decode_ascii. unfold Utf8.RuneSelf in Hb. lia.
  - set (start := Z.max _ 0).
    assert (Hstart : 0 <= start <= Z.of_nat (length s')).
    { subst start. match goal with |- context [Utf8.backToStart ?n ?s ?l ?i] =>
        pose proof (backToStart_le n s l i) end. lia. }
    destruct (Utf8.DecodeRuneInString (drop (Z.to_nat start) (s' ++ [b])))
      as [r' size'] eqn:Hd.
    assert (Hne : drop (Z.to_nat start) (s' ++ [b]) <> []).
    { intros Hnil. apply (f_equal length) in Hnil.
      rewrite length_drop, length_app in Hnil. cbn in Hnil. lia. }
    pose proof (Decode_width _ Hne) as [Hw _]. rewrite Hd in Hw. cbn [snd] in Hw.
    rewrite length_drop, length_app in Hw. cbn [length] in Hw.
    case_match; bools; intros [= <- <-].
    + split; [lia|]. right. split; [done|]. split; [done|].
      exists b. split; [done|]. unfold Utf8.RuneSelf in Hb. lia.
    + split; [lia|]. left.
      replace (length s' + 1 - size')%nat with (Z.to_nat start) by lia. done.
Qed.

(** The loop of [lastIndexFunc] ends within [i] turns. *)
Lemma lastIndexLoop_fuel (s : bytes) (f : Z -> bool) (truth : bool) (n : nat) :
  forall (m i : nat),
    (i <= n)%nat -> (i <= m)%nat -> (i <= length s)%nat ->
    Strings.lastIndexLoop n s f truth i = Strings.lastIndexLoop m s f truth i.
Proof.
  induction n as [|n IH]; intros m i Hn Hm Hs.
  - assert (i = 0%nat) as -> by lia. by destruct m.
  - destruct m as [|m]; [by assert (i = 0%nat) as -> by lia|].
    cbn [Strings.lastIndexLoop].
    destruct (i =? 0)%nat eqn:Hi; [reflexivity|]. apply Nat.eqb_neq in Hi.
    destruct (Utf8.DecodeLastRuneInString (take i s)) as [r size] eqn:Hd.
    assert (Hne : take i s <> []).
    { intros Hnil. apply (f_equal length) in Hnil. rewrite length_take in Hnil.
      cbn in Hnil. lia. }
    destruct (DecodeLast_spec _ _ _ Hne Hd) as [Hsize _].
    destruct (Bool.eqb (f r) truth); [reflexivity|]. apply IH; lia.
Qed.

Lemma Decode_starts (u : bytes) (r : Z) (w : nat) :
  Utf8.DecodeRuneInString u = (r, w) ->
  (r, w) <> (Utf8.RuneError, 1%nat) -> startsRune u.
Proof.
  destruct u as [|c0 u]; [done|]. cbn [startsRune].
  unfold Utf8.DecodeRuneInString.
  destruct (Utf8.first (byteZ c0)) as [| |sz lo hi] eqn:F; intros Hd Hne.
  - apply RuneStart_spec. left. by apply first_AS.
  - done.
  - apply RuneStart_spec. right. apply first_SZ in F. lia.
Qed.

Lemma TrimRightFunc_rightEnd (s : bytes) (f : Z -> bool) :
  Strings.TrimRightFunc s f =
  take (Z.to_nat (rightEnd s (Strings.lastIndexFunc s f false))) s.
Proof. reflexivity. Qed.

Lemma rightEnd_none (s : bytes) : rightEnd s (-1) = 0.
Proof.
  unfold rightEnd. cbn. by destruct s.
Qed.

(** The width that [TrimRightFunc] decodes forward at the index of the last
    rune is the width that [lastIndexFunc] decoded backward, when the bytes
    cut off start a rune. *)
Lemma rightEnd_last (s : bytes) (e : nat) (r : Z) (size : nat) :
  (0 < e <= length s)%nat ->
  Utf8.DecodeLastRuneInString (take e s) = (r, size) ->
  startsRune (drop e s) ->
  rightEnd s (Z.of_nat (e - size)) = Z.of_nat e.
Proof.
  intros He Hd Hv.
  assert (Hne : take e s <> []).
  { intros Hnil. apply (f_equal length) in Hnil. rewrite length_take in Hnil.
    cbn in Hnil. lia. }
  destruct (DecodeLast_spec _ _ _ Hne Hd) as [Hsize Hcase].
  rewrite length_take in Hsize, Hcase.
  replace (e `min` length s)%nat with e in * by lia.
  set (i := (e - size)%nat).
  set (u := drop i (take e s)).
  assert (Hu : drop i s = u ++ drop e s).
  { subst u. rewrite <- (take_drop e s) at 1.
    rewrite drop_app_le by (rewrite length_take; lia). reflexivity. }
  assert (Hlen : length u = size).
  { subst u. rewrite length_drop, length_take. lia. }
  assert (Hune : u <> []).
  { intros Hnil. rewrite Hnil in Hlen. cbn in Hlen. lia. }
  assert (Hw : (Utf8.DecodeRuneInString u).2 = size).
  { destruct Hcase as [Hc|(-> & -> & _)].
    - subst u i. by rewrite Hc.
    - pose proof (Decode_width u Hune). lia. }
  unfold rightEnd. rewrite Nat2Z.id.
  destruct (s !! i) as [b|] eqn:Hb; [|apply lookup_ge_None in Hb; lia].
  assert (Hhd : exists u', u = b :: u').
  { destruct u as [|b' u'] eqn:Eu; [done|]. exists u'.
    apply (f_equal (fun l => l !! 0%nat)) in Hu. rewrite lookup_drop in Hu.
    rewrite Nat.add_0_r, Hb in Hu. cbn in Hu. by simplify_eq. }
  destruct Hhd as [u' Hu'].
  rewrite Hu, (Decode_app_start u (drop e s) Hune Hv), Hw.
  destruct (Utf8.RuneSelf <=? byteZ b) eqn:Hbb; unfold Utf8.RuneSelf in Hbb; bools.
  - replace (0 <=? Z.of_nat i) with true by (symmetry; apply Z.leb_le; lia).
    cbn. lia.
  - rewrite andb_false_r. rewrite Hu', Decode_ascii in Hw by lia. cbn in Hw. lia.
Qed.

(** The loop of [lastIndexFunc] with a predicate that the error rune fails,
    as [TrimRightFunc] uses it: the cut is at the end of the last rune that
    fails the predicate. *)
Lemma lastIndexLoop_cut (f : Z -> bool) (s : bytes) (n : nat) :
  f Utf8.RuneError = false ->
  forall e : nat,
    (e <= n)%nat -> (e <= length s)%nat -> startsRune (drop e s) ->
    exists e' : nat,
      rightEnd s (Strings.lastIndexLoop n s f false e) = Z.of_nat e'
      /\ (e' <= e)%nat
      /\ (e' = 0%nat \/ f (Utf8.DecodeLastRuneInString (take e' s)).1 = false)
      /\ ((0 < e)%nat -> f (Utf8.DecodeLastRuneInString (take e s)).1 = false ->
          e' = e).
Proof.
  intros Hf. induction n as [|n IH]; intros e Hn He Hv.
  - exists 0%nat. cbn. rewrite rightEnd_none. repeat split; auto; lia.
  - cbn [Strings.lastIndexLoop].
    destruct (e =? 0)%nat eqn:He0; bools.
    { exists 0%nat. rewrite rightEnd_none. repeat split; auto; lia. }
    destruct (Utf8.DecodeLastRuneInString (take e s)) as [r size] eqn:Hd.
    assert (Hne : take e s <> []).
    { intros Hnil. apply (f_equal length) in Hnil. rewrite length_take in Hnil.
      cbn in Hnil. lia. }
    destruct (DecodeLast_spec _ _ _ Hne Hd) as [Hsize Hcase].
    rewrite length_take in Hsize, Hcase.
    replace (e `min` length s)%nat with e in * by lia.
    destruct (f r) eqn:Hfr; cbn [Bool.eqb].
    + assert (Hv' : startsRune (drop (e - size) s)).
      { destruct Hcase as [Hc|(-> & _)]; [|congruence].
        assert (Hst : startsRune (drop (e - size) (take e s))).
        { eapply Decode_starts; [exact Hc|]. intros [= -> _]. congruence. }
        rewrite <- (take_drop e s) at 1.
        rewrite drop_app_le by (rewrite length_take; lia).
        destruct (drop (e - size) (take e s)) eqn:E; [|exact Hst].
        apply (f_equal length) in E. rewrite length_drop, length_take in E.
        cbn in E. lia. }
      destruct (IH (e - size)%nat ltac:(lia) ltac:(lia) Hv')
        as (e' & Hr & Hle & Hstop & _).
      exists e'. repeat split; auto; try lia. intros _ Habs. cbn in Habs. congruence.
    + exists e. rewrite (rightEnd_last s e r size); auto; try lia.
      repeat split; auto. right. by rewrite Hd.
Qed.

Lemma TrimRightFunc_cut (f : Z -> bool) (s : bytes) :
  f Utf8.RuneError = false ->
  exists e : nat,
    Strings.TrimRightFunc s f = take e s
    /\ (e = 0%nat \/ f (Utf8.DecodeLastRuneInString (take e s)).1 = false).
Proof.
  intros Hf.
  destruct (lastIndexLoop_cut f s (length s) Hf (length s))
    as (e & Hr & _ & Hstop & _); try lia.
  { by rewrite drop_all. }
  exists e. rewrite TrimRightFunc_rightEnd. unfold Strings.lastIndexFunc.
  rewrite Hr, Nat2Z.id. done.
Qed.

Lemma TrimRightFunc_id (f : Z -> bool) (t : bytes) :
  f Utf8.RuneError = false ->
  f (Utf8.DecodeLastRuneInString t).1 = false ->
  Strings.TrimRightFunc t f = t.
Proof.
  intros Hf Ht. destruct t as [|c t]; [reflexivity|].
  destruct (lastIndexLoop_cut f (c :: t) (length (c :: t)) Hf (length (c :: t)))
    as (e & Hr & _ & _ & Hfirst); try lia.
  { by rewrite drop_all. }
  rewrite TrimRightFunc_rightEnd. unfold Strings.lastIndexFunc.
  rewrite Hr, Nat2Z.id, Hfirst; [apply firstn_all|cbn; lia|by rewrite firstn_all].
Qed.

Lemma TrimRightFunc_snoc (f : Z -> bool) (t : bytes) (c : ascii) :
  f Utf8.RuneError = false ->
  byteZ c < 0x80 -> f (byteZ c) = true ->
  f (Utf8.DecodeLastRuneInString t).1 = false ->
  Strings.TrimRightFunc (t ++ [c]) f = t.
Proof.
  intros Hf Hc Hfc Ht.
  rewrite TrimRightFunc_rightEnd. unfold Strings.lastIndexFunc.
  rewrite length_app. cbn [length]. rewrite Nat.add_1_r.
  cbn [Strings.lastIndexLoop].
  replace (take (S (length t)) (t ++ [c])) with (t ++ [c])
    by (symmetry; apply take_ge; rewrite length_app; cbn; lia).
  rewrite DecodeLast_ascii by done. rewrite Hfc. cbn [Bool.eqb].
  replace (S (length t) - 1)%nat with (length t) by lia.
  destruct (lastIndexLoop_cut f (t ++ [c]) (length t) Hf (length t))
    as (e & Hr & Hle & _ & Hfirst); try lia.
  { rewrite length_app. lia. }
  { rewrite drop_app_length. cbn. apply RuneStart_spec. lia. }
  change (S (length t) =? 0)%nat with false. cbv iota.
  rewrite Hr, Nat2Z.id.
  destruct t as [|d t]; [by replace e with 0%nat by (cbn in Hle; lia)|].
  rewrite Hfirst; [apply take_app_length|cbn; lia|by rewrite take_app_length].
Qed.

(** ** Trimmed strings *)

Lemma IsSpace_RuneError : Unicode.IsSpace Utf8.RuneError = false.
Proof. reflexivity. Qed.

Lemma asciiSpace_IsSpace (c : ascii) :
  byteZ c < 0x80 -> Strings.asciiSpace c = Unicode.IsSpace (byteZ c).
Proof.
  intros Hc. unfold Strings.asciiSpace, Unicode.IsSpace, Unicode.MaxLatin1.
  replace (byteZ c <=? 255) with true by (symmetry; apply Z.leb_le; lia).
  replace (byteZ c =? 133) with false by (symmetry; apply Z.eqb_neq; lia).
  replace (byteZ c =? 160) with false by (symmetry; apply Z.eqb_neq; lia).
  by rewrite !orb_false_r.
Qed.

(** A prefix starts with a space only if the string does. *)
Lemma leadingSpace_take (s : bytes) (k : nat) :
  leadingSpace s = false -> leadingSpace (take k s) = false.
Proof.
  unfold leadingSpace. intros Hs.
  destruct (Utf8.DecodeRuneInString (take k s)) as [r w] eqn:Hd. cbn.
  destruct (Unicode.IsSpace r) eqn:Hr; [|done].
  assert (Hne : take k s <> []).
  { intros Hnil. rewrite Hnil in Hd. cbn in Hd. simplify_eq. }
  assert (Hv : (r, w) <> (Utf8.RuneError, 1%nat)).
  { intros [= -> _]. done. }
  pose proof (Decode_app_valid _ (drop k s) _ _ Hd Hne Hv) as Hfull.
  rewrite take_drop in Hfull. rewrite Hfull in Hs. cbn in Hs. congruence.
Qed.

(** The runes of [range] are the ones the decoder reads at their index. *)
Lemma rangeFrom_decode (s : bytes) :
  forall (i k j : nat) (r : Z),
    In (j, r) (Utf8.rangeFrom i k s) ->
    (i <= j)%nat /\ (Utf8.DecodeRuneInString (drop (j - i) s)).1 = r.
Proof.
  induction s as [|c s IH]; intros i k j r Hin; [done|].
  cbn [Utf8.rangeFrom] in Hin. destruct k as [|k].
  - destruct (Utf8.DecodeRuneInString (c :: s)) as [r0 w0] eqn:Hd.
    destruct Hin as [[= <- <-]|Hin].
    + split; [lia|]. rewrite Nat.sub_diag. cbn [drop]. by rewrite Hd.
    + apply IH in Hin as [Hle Hin]. split; [lia|].
      replace (j - i)%nat with (S (j - S i)) by lia. done.
  - apply IH in Hin as [Hle Hin]. split; [lia|].
    replace (j - i)%nat with (S (j - S i)) by lia. done.
Qed.

Lemma TrimLeftFunc_leading (f : Z -> bool) (s : bytes) :
  f Utf8.RuneError = false ->
  f (Utf8.DecodeRuneInString (Strings.TrimLeftFunc s f)).1 = false.
Proof.
  intros Hf. unfold Strings.TrimLeftFunc, Strings.indexFunc.
  destruct (find _ (Utf8.range s)) as [[i r]|] eqn:Hfind; [|done].
  apply find_some in Hfind as [Hin Hr]. cbn in Hr.
  apply rangeFrom_decode in Hin as [_ Hd].
  replace (Z.of_nat i =? -1) with false by (symmetry; apply Z.eqb_neq; lia).
  rewrite Nat2Z.id. rewrite Nat.sub_0_r in Hd. rewrite Hd.
  by destruct (f r).
Qed.

Lemma TrimLeftFunc_id (f : Z -> bool) (s : bytes) :
  f (Utf8.DecodeRuneInString s).1 = false -> Strings.TrimLeftFunc s f = s.
Proof.
  intros Hs. destruct s as [|c s]; [reflexivity|].
  unfold Strings.TrimLeftFunc, Strings.indexFunc, Utf8.range.
  cbn [Utf8.rangeFrom].
  destruct (Utf8.DecodeRuneInString (c :: s)) as [r w]. cbn in Hs.
  cbn [find snd]. rewrite Hs. reflexivity.
Qed.

Lemma TrimLeftFunc_all (f : Z -> bool) (s : bytes) :
  forallb (fun ir => f ir.2) (Utf8.range s) = true ->
  Strings.TrimLeftFunc s f = [].
Proof.
  intros Hall. unfold Strings.TrimLeftFunc, Strings.indexFunc.
  destruct (find _ (Utf8.range s)) as [[i r]|] eqn:Hfind; [|done].
  apply find_some in Hfind as [Hin Hr]. cbn in Hr.
  rewrite forallb_forall in Hall. apply Hall in Hin. cbn in Hin.
  rewrite Hin in Hr. done.
Qed.

Lemma TrimFunc_trimmed (s : bytes) : trimmed (Strings.TrimFunc s Unicode.IsSpace).
Proof.
  unfold Strings.TrimFunc.
  destruct (TrimRightFunc_cut Unicode.IsSpace
              (Strings.TrimLeftFunc s Unicode.IsSpace) IsSpace_RuneError)
    as (e & -> & He).
  split.
  - apply leadingSpace_take, TrimLeftFunc_leading, IsSpace_RuneError.
  - destruct He as [->|He]; [reflexivity|exact He].
Qed.

Lemma trailingSpace_snoc (s : bytes) (c : ascii) :
  byteZ c < 0x80 -> trailingSpace (s ++ [c]) = Strings.asciiSpace c.
Proof.
  intros Hc. unfold trailingSpace. rewrite DecodeLast_ascii by done.
  cbn. by rewrite asciiSpace_IsSpace.
Qed.

Lemma leadingSpace_cons (c : ascii) (s : bytes) :
  byteZ c < 0x80 -> leadingSpace (c :: s) = Strings.asciiSpace c.
Proof.
  intros Hc. unfold leadingSpace. rewrite Decode_ascii by done.
  cbn. by rewrite asciiSpace_IsSpace.
Qed.

(** The second loop of [TrimSpace] on a slice with no space at its start. *)
Lemma trimSpaceStop_trimmed (rs : bytes) :
  leadingSpace (rev rs) = false -> trimmed (Strings.trimSpaceStop rs).
Proof.
  induction rs as [|c rs IH]; intros Hlead; [done|].
  cbn [Strings.trimSpaceStop].
  destruct (Utf8.RuneSelf <=? byteZ c) eqn:Hc; unfold Utf8.RuneSelf in Hc; bools.
  - destruct (TrimRightFunc_cut Unicode.IsSpace (rev (c :: rs)) IsSpace_RuneError)
      as (e & -> & He).
    split; [by apply leadingSpace_take|].
    destruct He as [->|He]; [reflexivity|exact He].
  - destruct (Strings.asciiSpace c) eqn:Hsp.
    + apply IH. cbn [rev] in Hlead.
      rewrite <- (take_app_length (rev rs) [c]). by apply leadingSpace_take.
    + split; [done|]. cbn [rev]. rewrite trailingSpace_snoc by lia. done.
Qed.

Lemma TrimSpace_trimmed (s : bytes) : trimmed (Strings.TrimSpace s).
Proof.
  induction s as [|c s IH]; [done|].
  cbn [Strings.TrimSpace].
  destruct (Utf8.RuneSelf <=? byteZ c) eqn:Hc; unfold Utf8.RuneSelf in Hc; bools.
  - apply TrimFunc_trimmed.
  - destruct (Strings.asciiSpace c) eqn:Hsp; [exact IH|].
    apply trimSpaceStop_trimmed. rewrite rev_involutive.
    rewrite leadingSpace_cons by lia. done.
Qed.

(** A trimmed string followed by a newline is trimmed back to itself. *)
Lemma TrimSpace_trimmed_newline (t : bytes) :
  trimmed t -> Strings.TrimSpace (t ++ [nl]) = t.
Proof.
  intros [Hlead Htrail]. destruct t as [|c t]; [reflexivity|].
  cbn [app Strings.TrimSpace].
  destruct (Utf8.RuneSelf <=? byteZ c) eqn:Hc; unfold Utf8.RuneSelf in Hc; bools.
  - unfold Strings.TrimFunc. rewrite TrimLeftFunc_id.
    + apply (TrimRightFunc_snoc Unicode.IsSpace (c :: t) nl); try done.
    + change (c :: t ++ [nl]) with ((c :: t) ++ [nl]).
      rewrite Decode_app_start; [exact Hlead|done|reflexivity].
  - rewrite leadingSpace_cons in Hlead by lia. rewrite Hlead.
    change (c :: t ++ [nl]) with ((c :: t) ++ [nl]).
    rewrite rev_app_distr. cbn [rev app Strings.trimSpaceStop].
    change (Utf8.RuneSelf <=? byteZ nl) with false.
    change (Strings.asciiSpace nl) with true. cbv iota.
    destruct (rev t ++ [c]) as [|d rt] eqn:Hrev.
    { by destruct (rev t). }
    assert (Ht : c :: t = rev rt ++ [d]).
    { rewrite <- (rev_involutive (c :: t)). cbn [rev]. by rewrite Hrev. }
    cbn [Strings.trimSpaceStop].
    destruct (Utf8.RuneSelf <=? byteZ d) eqn:Hd; unfold Utf8.RuneSelf in Hd; bools.
    + cbn [rev]. rewrite <- Ht. by apply TrimRightFunc_id.
    + rewrite Ht, trailingSpace_snoc in Htrail by lia. rewrite Htrail.
      cbn [rev]. by rewrite Ht.
Qed.

Lemma rangeFrom_index (s : bytes) (i j k : nat) :
  map snd (Utf8.rangeFrom i k s) = map snd (Utf8.rangeFrom j k s).
Proof.
  revert i j k. induction s as [|c s IH]; intros i j k; [done|].
  cbn [Utf8.rangeFrom]. destruct k as [|k]; [|apply IH].
  destruct (Utf8.DecodeRuneInString (c :: s)) as [r w]. cbn [map snd].
  f_equal. apply IH.
Qed.

Lemma forallb_snd {A B} (f : B -> bool) (l : list (A * B)) :
  forallb (fun x => f x.2) l = forallb f (map snd l).
Proof. induction l as [|[a b] l IH]; cbn; [done|]. by rewrite IH. Qed.

(** A string of spaces only is trimmed to nothing. *)
Lemma TrimSpace_allSpace (s : bytes) :
  allSpace s = true -> Strings.TrimSpace s = [].
Proof.
  unfold allSpace. induction s as [|c s IH]; intros Hall; [reflexivity|].
  cbn [Strings.TrimSpace].
  destruct (Utf8.RuneSelf <=? byteZ c) eqn:Hc; unfold Utf8.RuneSelf in Hc; bools.
  - unfold Strings.TrimFunc. by rewrite TrimLeftFunc_all.
  - unfold Utf8.range in Hall. cbn [Utf8.rangeFrom] in Hall.
    rewrite Decode_ascii in Hall by lia. cbn [forallb snd Nat.sub] in Hall.
    apply andb_true_iff in Hall as [Hc' Hall].
    rewrite asciiSpace_IsSpace, Hc' by lia.
    apply IH. rewrite forallb_snd in Hall |- *.
    unfold Utf8.range. by rewrite (rangeFrom_index s 0 1 0).
Qed.

(** ** Encoding and decoding *)

Lemma land_low (b n : Z) : 0 <= n -> Z.land b (2 ^ n - 1) = b mod 2 ^ n.
Proof.
  intros Hn. rewrite <- Z.land_ones by done. f_equal.
  rewrite Z.ones_equiv. lia.
Qed.

Lemma byte_of_Z_eq (z : Z) (c : ascii) : z = byteZ c -> byte_of_Z z = c.
Proof. intros ->. apply byte_of_Z_byteZ. Qed.

Ltac arith_bits :=
  unfold Utf8.maskx, Utf8.mask2, Utf8.mask3, Utf8.mask4, Utf8.t2, Utf8.t3,
    Utf8.t4, Utf8.tx in *;
  change 0x3F with (2 ^ 6 - 1) in *;
  change 0x1F with (2 ^ 5 - 1) in *;
  change 0x0F with (2 ^ 4 - 1) in *;
  change 0x07 with (2 ^ 3 - 1) in *;
  rewrite ?land_low, ?Z.shiftl_mul_pow2, ?Z.shiftr_div_pow2, ?byteZ_byte_of_Z
    by lia.

Lemma first_SZ_inv (s0 : Z) (sz : nat) (lo hi : Z) :
  Utf8.first s0 = Utf8.SZ sz lo hi ->
  (sz = 2%nat /\ 0xC2 <= s0 <= 0xDF /\ lo = 0x80 /\ hi = 0xBF)
  \/ (sz = 3%nat /\ 0xE0 <= s0 <= 0xEF
      /\ lo = (if s0 =? 0xE0 then 0xA0 else 0x80)
      /\ hi = (if s0 =? 0xED then 0x9F else 0xBF))
  \/ (sz = 4%nat /\ 0xF0 <= s0 <= 0xF4
      /\ lo = (if s0 =? 0xF0 then 0x90 else 0x80)
      /\ hi = (if s0 =? 0xF4 then 0x8F else 0xBF)).
Proof.
  unfold Utf8.first, Utf8.locb, Utf8.hicb.
  repeat case_match; intros; simplify_eq; bools;
    first [ left; repeat split; lia
          | right; left; repeat split; first [lia | repeat case_match; bools; lia]
          | right; right; repeat split; first [lia | repeat case_match; bools; lia] ].
Qed.

Lemma in_range_false (x lo hi : Z) :
  lo <= x <= hi -> (x <? lo) || (hi <? x) = false.
Proof. intros. apply orb_false_iff. split; apply Z.ltb_ge; lia. Qed.

Lemma Decode2 (c0 c1 : ascii) (s : bytes) (lo hi : Z) :
  Utf8.first (byteZ c0) = Utf8.SZ 2 lo hi -> lo <= byteZ c1 <= hi ->
  Utf8.DecodeRuneInString (c0 :: c1 :: s) =
  ((byteZ c0 - 0xC0) * 64 + (byteZ c1 - 0x80), 2%nat).
Proof.
  intros F H1. unfold Utf8.DecodeRuneInString. rewrite F.
  cbn [length Nat.ltb Nat.leb]. rewrite in_range_false by done.
  apply first_SZ_inv in F as [(_ & H0 & -> & ->)|[(? & _)|(? & _)]]; [|done..].
  f_equal. arith_bits.
  rewrite lor_add by (try lia; apply Z.mod_pos_bound; lia).
  change (2 ^ 6) with 64. change (2 ^ 5) with 32.
  Z.div_mod_to_equations. lia.
Qed.

Lemma lo_hi_cont (s0 lo hi x : Z) (sz : nat) :
  Utf8.first s0 = Utf8.SZ sz lo hi -> lo <= x <= hi -> 0x80 <= x <= 0xBF.
Proof. intros F H. apply first_SZ in F. lia. Qed.

Lemma Decode3 (c0 c1 c2 : ascii) (s : bytes) (lo hi : Z) :
  Utf8.first (byteZ c0) = Utf8.SZ 3 lo hi -> lo <= byteZ c1 <= hi -> cont c2 ->
  Utf8.DecodeRuneInString (c0 :: c1 :: c2 :: s) =
  ((byteZ c0 - 0xE0) * 4096 + (byteZ c1 - 0x80) * 64 + (byteZ c2 - 0x80), 3%nat).
Proof.
  intros F H1 H2. unfold Utf8.DecodeRuneInString. rewrite F.
  cbn [length Nat.ltb Nat.leb]. rewrite in_range_false by done.
  unfold Utf8.locb, Utf8.hicb. rewrite in_range_false by done.
  pose proof (lo_hi_cont _ _ _ _ _ F H1) as H1'.
  apply first_SZ_inv in F as [(? & _)|[(_ & H0 & _)|(? & _)]]; [done| |done].
  f_equal. arith_bits.
  pose proof (Z.mod_pos_bound (byteZ c0) (2 ^ 4) ltac:(lia)).
  pose proof (Z.mod_pos_bound (byteZ c1) (2 ^ 6) ltac:(lia)).
  pose proof (Z.mod_pos_bound (byteZ c2) (2 ^ 6) ltac:(lia)).
  rewrite (lor_add _ (_ * 2 ^ 6) 12) by lia.
  replace (byteZ c0 mod 2 ^ 4 * 2 ^ 12 + byteZ c1 mod 2 ^ 6 * 2 ^ 6)
    with ((byteZ c0 mod 2 ^ 4 * 2 ^ 6 + byteZ c1 mod 2 ^ 6) * 2 ^ 6) by lia.
  rewrite lor_add by lia.
  unfold cont in H2.
  change (2 ^ 6) with 64 in *. change (2 ^ 4) with 16 in *.
  Z.div_mod_to_equations. lia.
Qed.

Lemma Decode4 (c0 c1 c2 c3 : ascii) (s : bytes) (lo hi : Z) :
  Utf8.first (byteZ c0) = Utf8.SZ 4 lo hi -> lo <= byteZ c1 <= hi ->
  cont c2 -> cont c3 ->
  Utf8.DecodeRuneInString (c0 :: c1 :: c2 :: c3 :: s) =
  ((byteZ c0 - 0xF0) * 262144 + (byteZ c1 - 0x80) * 4096
   + (byteZ c2 - 0x80) * 64 + (byteZ c3 - 0x80), 4%nat).
Proof.
  intros F H1 H2 H3. unfold Utf8.DecodeRuneInString. rewrite F.
  cbn [length Nat.ltb Nat.leb]. rewrite in_range_false by done.
  unfold Utf8.locb, Utf8.hicb. rewrite !in_range_false by done.
  pose proof (lo_hi_cont _ _ _ _ _ F H1) as H1'.
  apply first_SZ_inv in F as [(? & _)|[(? & _)|(_ & H0 & _)]]; [done..|].
  f_equal. arith_bits.
  pose proof (Z.mod_pos_bound (byteZ c0) (2 ^ 3) ltac:(lia)).
  pose proof (Z.mod_pos_bound (byteZ c1) (2 ^ 6) ltac:(lia)).
  pose proof (Z.mod_pos_bound (byteZ c2) (2 ^ 6) ltac:(lia)).
  pose proof (Z.mod_pos_bound (byteZ c3) (2 ^ 6) ltac:(lia)).
  rewrite (lor_add _ (_ * 2 ^ 12) 18) by lia.
  replace (byteZ c0 mod 2 ^ 3 * 2 ^ 18 + byteZ c1 mod 2 ^ 6 * 2 ^ 12)
    with ((byteZ c0 mod 2 ^ 3 * 2 ^ 6 + byteZ c1 mod 2 ^ 6) * 2 ^ 12) by lia.
  rewrite (lor_add _ (_ * 2 ^ 6) 12) by lia.
  replace ((byteZ c0 mod 2 ^ 3 * 2 ^ 6 + byteZ c1 mod 2 ^ 6) * 2 ^ 12
           + byteZ c2 mod 2 ^ 6 * 2 ^ 6)
    with (((byteZ c0 mod 2 ^ 3 * 2 ^ 6 + byteZ c1 mod 2 ^ 6) * 2 ^ 6
           + byteZ c2 mod 2 ^ 6) * 2 ^ 6) by lia.
  rewrite lor_add by lia.
  unfold cont in H2, H3.
  change (2 ^ 6) with 64 in *. change (2 ^ 3) with 8 in *.
  Z.div_mod_to_equations. lia.
Qed.

Lemma out_of_range_true (x lo hi : Z) :
  ~ lo <= x <= hi -> (x <? lo) || (hi <? x) = true.
Proof.
  intros. apply orb_true_iff.
  destruct (Z.ltb_spec x lo); [by left|right]. apply Z.ltb_lt. lia.
Qed.

Lemma Decode_decoded (s : bytes) :
  s <> [] ->
  decoded s (Utf8.DecodeRuneInString s).1 (Utf8.DecodeRuneInString s).2.
Proof.
  destruct s as [|c0 s]; [done|]. intros _.
  destruct (Utf8.first (byteZ c0)) as [| |sz lo hi] eqn:F.
  - apply first_AS in F. rewrite Decode_ascii by done. by constructor.
  - unfold Utf8.DecodeRuneInString. rewrite F. by constructor.
  - assert (Herr : forall s', (length (c0 :: s') < sz)%nat ->
        Utf8.DecodeRuneInString (c0 :: s') = (Utf8.RuneError, 1%nat)).
    { intros s' Hl. unfold Utf8.DecodeRuneInString. rewrite F.
      apply Nat.ltb_lt in Hl. by rewrite Hl. }
    pose proof (first_SZ _ _ _ _ F) as (Hsz & _).
    destruct s as [|c1 s]; [rewrite Herr by (cbn; lia); by constructor|].
    destruct (decide (lo <= byteZ c1 <= hi)) as [H1|H1]; cycle 1.
    { unfold Utf8.DecodeRuneInString. rewrite F, (out_of_range_true _ _ _ H1).
      repeat case_match; bools; first [by constructor | exfalso; lia]. }
    destruct (decide (sz = 2%nat)) as [->|Hsz2].
    { rewrite (Decode2 _ _ _ _ _ F H1). by econstructor. }
    destruct s as [|c2 s]; [rewrite Herr by (cbn; lia); by constructor|].
    destruct (decide (cont c2)) as [H2|H2]; cycle 1.
    { unfold Utf8.DecodeRuneInString. rewrite F, (in_range_false _ _ _ H1).
      unfold Utf8.locb, Utf8.hicb. rewrite (out_of_range_true _ _ _ H2).
      repeat case_match; bools; first [by constructor | exfalso; lia]. }
    destruct (decide (sz = 3%nat)) as [->|Hsz3].
    { rewrite (Decode3 _ _ _ _ _ _ F H1 H2). by econstructor. }
    assert (sz = 4%nat) as -> by lia.
    destruct s as [|c3 s]; [rewrite Herr by (cbn; lia); by constructor|].
    destruct (decide (cont c3)) as [H3|H3]; cycle 1.
    { unfold Utf8.DecodeRuneInString. rewrite F, (in_range_false _ _ _ H1).
      unfold Utf8.locb, Utf8.hicb.
      rewrite (in_range_false _ _ _ H2), (out_of_range_true _ _ _ H3).
      repeat case_match; bools; first [by constructor | exfalso; lia]. }
    rewrite (Decode4 _ _ _ _ _ _ _ F H1 H2 H3). by econstructor.
Qed.

(** The encoder, with its bit operations as arithmetic. *)
Lemma AppendRune1 (r : Z) :
  0 <= r <= 0x7F -> Utf8.AppendRune r = [byte_of_Z r].
Proof.
  intros Hr. unfold Utf8.AppendRune, Utf8.rune1Max.
  rewrite Z.mod_small by lia.
  replace (r <=? 127) with true by (symmetry; apply Z.leb_le; lia). done.
Qed.

Lemma lor_tx (x : Z) : Z.lor 0x80 (x mod 2 ^ 6) = 0x80 + x mod 2 ^ 6.
Proof.
  change 0x80 with (2 * 2 ^ 6). apply lor_add; try lia.
  apply Z.mod_pos_bound. lia.
Qed.

Lemma cont_byte (y : Z) :
  Z.lor Utf8.tx (Z.land (byteZ (byte_of_Z y)) Utf8.maskx) = 0x80 + y mod 64.
Proof.
  arith_bits. rewrite lor_tx. change (2 ^ 6) with 64.
  Z.div_mod_to_equations. lia.
Qed.

Lemma AppendRune2 (r : Z) :
  0x80 <= r <= 0x7FF ->
  Utf8.AppendRune r = [byte_of_Z (0xC0 + r / 64); byte_of_Z (0x80 + r mod 64)].
Proof.
  intros Hr. unfold Utf8.AppendRune, Utf8.rune1Max, Utf8.rune2Max.
  rewrite Z.mod_small by lia.
  replace (r <=? 127) with false by (symmetry; apply Z.leb_gt; lia).
  replace (r <=? 2047) with true by (symmetry; apply Z.leb_le; lia).
  rewrite cont_byte. f_equal. f_equal. arith_bits.
  change (2 ^ 6) with 64.
  rewrite (Z.mod_small (r / 64)) by (Z.div_mod_to_equations; lia).
  change 192 with (3 * 2 ^ 6). rewrite lor_add; try lia.
  change (2 ^ 6) with 64. Z.div_mod_to_equations. lia.
Qed.

Lemma AppendRune3 (r : Z) :
  0x800 <= r <= 0xFFFF -> ~ (0xD800 <= r <= 0xDFFF) ->
  Utf8.AppendRune r =
  [byte_of_Z (0xE0 + r / 4096); byte_of_Z (0x80 + (r / 64) mod 64);
   byte_of_Z (0x80 + r mod 64)].
Proof.
  intros Hr Hs. unfold Utf8.AppendRune, Utf8.rune1Max, Utf8.rune2Max,
    Utf8.rune3Max, Utf8.MaxRune, Utf8.surrogateMin, Utf8.surrogateMax.
  rewrite Z.mod_small by lia.
  replace (r <=? 127) with false by (symmetry; apply Z.leb_gt; lia).
  replace (r <=? 2047) with false by (symmetry; apply Z.leb_gt; lia).
  replace (1114111 <? r) with false by (symmetry; apply Z.ltb_ge; lia).
  replace ((55296 <=? r) && (r <=? 57343)) with false
    by (symmetry; apply andb_false_iff;
        destruct (Z.leb_spec 55296 r); [right; apply Z.leb_gt; lia|by left]).
  replace (r <=? 65535) with true by (symmetry; apply Z.leb_le; lia).
  cbn [orb]. rewrite !cont_byte. f_equal; [|by rewrite Z.shiftr_div_pow2 by lia].
  f_equal. arith_bits. change (2 ^ 12) with 4096.
  rewrite (Z.mod_small (r / 4096)) by (Z.div_mod_to_equations; lia).
  change 224 with (14 * 2 ^ 4). rewrite lor_add; try lia.
  change (2 ^ 4) with 16. Z.div_mod_to_equations. lia.
Qed.

Lemma AppendRune4 (r : Z) :
  0x10000 <= r <= 0x10FFFF ->
  Utf8.AppendRune r =
  [byte_of_Z (0xF0 + r / 262144); byte_of_Z (0x80 + (r / 4096) mod 64);
   byte_of_Z (0x80 + (r / 64) mod 64); byte_of_Z (0x80 + r mod 64)].
Proof.
  intros Hr. unfold Utf8.AppendRune, Utf8.rune1Max, Utf8.rune2Max,
    Utf8.rune3Max, Utf8.MaxRune, Utf8.surrogateMin, Utf8.surrogateMax.
  rewrite Z.mod_small by lia.
  replace (r <=? 127) with false by (symmetry; apply Z.leb_gt; lia).
  replace (r <=? 2047) with false by (symmetry; apply Z.leb_gt; lia).
  replace (1114111 <? r) with false by (symmetry; apply Z.ltb_ge; lia).
  replace (r <=? 57343) with false by (symmetry; apply Z.leb_gt; lia).
  replace (r <=? 65535) with false by (symmetry; apply Z.leb_gt; lia).
  rewrite andb_false_r. cbn [orb]. rewrite !cont_byte.
  f_equal; [|by rewrite !Z.shiftr_div_pow2 by lia].
  f_equal. arith_bits. change (2 ^ 18) with 262144.
  rewrite (Z.mod_small (r / 262144)) by (Z.div_mod_to_equations; lia).
  change 240 with (30 * 2 ^ 3). rewrite lor_add; try lia.
  change (2 ^ 3) with 8. Z.div_mod_to_equations. lia.
Qed.

Lemma decoded_valid (s : bytes) (r : Z) (w : nat) :
  decoded s r w -> validRune r.
Proof.
  unfold validRune, Utf8.MaxRune, Utf8.surrogateMin, Utf8.surrogateMax, cont.
  destruct 1 as [c0 s Hc|c0 c1 s lo hi F H1|c0 c1 c2 s lo hi F H1 H2
                 |c0 c1 c2 c3 s lo hi F H1 H2 H3|s Hs]; unfold cont in *.
  - pose proof (byteZ_range c0). lia.
  - apply first_SZ_inv in F as [(_ & H0 & -> & ->)|[(? & _)|(? & _)]]; [|done..].
    lia.
  - apply first_SZ_inv in F as [(? & _)|[(_ & H0 & -> & ->)|(? & _)]]; [done| |done].
    repeat case_match; bools; lia.
  - apply first_SZ_inv in F as [(? & _)|[(? & _)|(_ & H0 & -> & ->)]]; [done..|].
    repeat case_match; bools; lia.
  - unfold Utf8.RuneError. lia.
Qed.

Lemma Decode_valid (s : bytes) : validRune (Utf8.DecodeRuneInString s).1.
Proof.
  destruct s as [|c s].
  - cbn. unfold validRune, Utf8.RuneError, Utf8.MaxRune, Utf8.surrogateMin,
      Utf8.surrogateMax. lia.
  - eapply decoded_valid, Decode_decoded. done.
Qed.

(** The bytes of a rune that was decoded are its encoding. *)
Lemma decoded_encode (s : bytes) (r : Z) (w : nat) :
  decoded s r w -> (r, w) <> (Utf8.RuneError, 1%nat) ->
  take w s = Utf8.AppendRune r.
Proof.
  unfold cont.
  destruct 1 as [c0 s Hc|c0 c1 s lo hi F H1|c0 c1 c2 s lo hi F H1 H2
                 |c0 c1 c2 c3 s lo hi F H1 H2 H3|s Hs]; intros Hne;
    unfold cont in *.
  - pose proof (byteZ_range c0).
    rewrite AppendRune1 by lia. by rewrite byte_of_Z_byteZ.
  - apply first_SZ_inv in F as [(_ & H0 & -> & ->)|[(? & _)|(? & _)]]; [|done..].
    rewrite AppendRune2 by lia. cbn [take].
    f_equal; [|f_equal]; symmetry; apply byte_of_Z_eq;
      Z.div_mod_to_equations; lia.
  - apply first_SZ_inv in F as [(? & _)|[(_ & H0 & -> & ->)|(? & _)]]; [done| |done].
    rewrite AppendRune3 by (repeat case_match; bools; lia). cbn [take].
    f_equal; [|f_equal; [|f_equal]]; symmetry; apply byte_of_Z_eq;
      repeat case_match; bools; Z.div_mod_to_equations; lia.
  - apply first_SZ_inv in F as [(? & _)|[(? & _)|(_ & H0 & -> & ->)]]; [done..|].
    rewrite AppendRune4 by (repeat case_match; bools; lia). cbn [take].
    f_equal; [|f_equal; [|f_equal; [|f_equal]]]; symmetry; apply byte_of_Z_eq;
      repeat case_match; bools; Z.div_mod_to_equations; lia.
  - done.
Qed.

Lemma Decode_encode (s : bytes) (r : Z) (w : nat) :
  Utf8.DecodeRuneInString s = (r, w) -> s <> [] ->
  (r, w) <> (Utf8.RuneError, 1%nat) ->
  take w s = Utf8.AppendRune r.
Proof.
  intros Hd Hs Hne. pose proof (Decode_decoded s Hs) as H.
  rewrite Hd in H. by apply decoded_encode.
Qed.

Lemma first_byte (x : Z) :
  0 <= x < 256 -> Utf8.first (byteZ (byte_of_Z x)) = Utf8.first x.
Proof. intros. rewrite byteZ_byte_of_Z, Z.mod_small by lia. done. Qed.

(** The encoding of a valid rune is decoded to the rune. *)
Lemma Decode_AppendRune (r : Z) (s : bytes) :
  validRune r ->
  Utf8.DecodeRuneInString (Utf8.AppendRune r ++ s) =
  (r, length (Utf8.AppendRune r)).
Proof.
  unfold validRune, Utf8.MaxRune, Utf8.surrogateMin, Utf8.surrogateMax.
  intros [Hr Hs].
  destruct (Z.le_gt_cases r 0x7F); [|destruct (Z.le_gt_cases r 0x7FF);
    [|destruct (Z.le_gt_cases r 0xFFFF)]].
  - rewrite AppendRune1 by lia. cbn [app length].
    rewrite Decode_ascii; rewrite byteZ_byte_of_Z, Z.mod_small by lia; [done|lia].
  - rewrite AppendRune2 by lia. cbn [app length].
    assert (Hx : 0xC2 <= 0xC0 + r / 64 <= 0xDF) by (Z.div_mod_to_equations; lia).
    assert (Hy : 0x80 <= 0x80 + r mod 64 <= 0xBF) by (Z.div_mod_to_equations; lia).
    rewrite (Decode2 _ _ _ 0x80 0xBF).
    + rewrite !byteZ_byte_of_Z, !Z.mod_small by lia. f_equal.
      Z.div_mod_to_equations. lia.
    + rewrite first_byte by lia. unfold Utf8.first.
      repeat case_match; bools; first [reflexivity | lia].
    + rewrite byteZ_byte_of_Z, Z.mod_small by lia. lia.
  - rewrite AppendRune3 by lia. cbn [app length].
    assert (Hx : 0xE0 <= 0xE0 + r / 4096 <= 0xEF) by (Z.div_mod_to_equations; lia).
    assert (Hy : 0x80 <= 0x80 + (r / 64) mod 64 <= 0xBF)
      by (Z.div_mod_to_equations; lia).
    assert (Hz : 0x80 <= 0x80 + r mod 64 <= 0xBF) by (Z.div_mod_to_equations; lia).
    rewrite (Decode3 _ _ _ _ (if 0xE0 + r / 4096 =? 0xE0 then 0xA0 else 0x80)
                             (if 0xE0 + r / 4096 =? 0xED then 0x9F else 0xBF)).
    + rewrite !byteZ_byte_of_Z, !Z.mod_small by lia. f_equal.
      Z.div_mod_to_equations. lia.
    + rewrite first_byte by lia. unfold Utf8.first, Utf8.locb, Utf8.hicb.
      repeat case_match; bools; first [reflexivity | lia].
    + rewrite byteZ_byte_of_Z, Z.mod_small by lia.
      repeat case_match; bools; Z.div_mod_to_equations; lia.
    + unfold cont. rewrite byteZ_byte_of_Z, Z.mod_small by lia. lia.
  - rewrite AppendRune4 by lia. cbn [app length].
    assert (Hx : 0xF0 <= 0xF0 + r / 262144 <= 0xF4) by (Z.div_mod_to_equations; lia).
    assert (Hy : 0x80 <= 0x80 + (r / 4096) mod 64 <= 0xBF)
      by (Z.div_mod_to_equations; lia).
    assert (Hz : 0x80 <= 0x80 + (r / 64) mod 64 <= 0xBF)
      by (Z.div_mod_to_equations; lia).
    assert (Hu : 0x80 <= 0x80 + r mod 64 <= 0xBF) by (Z.div_mod_to_equations; lia).
    rewrite (Decode4 _ _ _ _ _ (if 0xF0 + r / 262144 =? 0xF0 then 0x90 else 0x80)
                               (if 0xF0 + r / 262144 =? 0xF4 then 0x8F else 0xBF)).
    + rewrite !byteZ_byte_of_Z, !Z.mod_small by lia. f_equal.
      Z.div_mod_to_equations. lia.
    + rewrite first_byte by lia. unfold Utf8.first, Utf8.locb, Utf8.hicb.
      repeat case_match; bools; first [reflexivity | lia].
    + rewrite byteZ_byte_of_Z, Z.mod_small by lia.
      repeat case_match; bools; Z.div_mod_to_equations; lia.
    + unfold cont. rewrite byteZ_byte_of_Z, Z.mod_small by lia. lia.
    + unfold cont. rewrite byteZ_byte_of_Z, Z.mod_small by lia. lia.
Qed.

(** ** Map and ToLower *)

Lemma rangeFrom_skip (s : bytes) :
  forall i k : nat,
    Utf8.rangeFrom i k s = Utf8.rangeFrom (i + k) 0 (drop k s).
Proof.
  induction s as [|c s IH]; intros i k.
  - by rewrite drop_nil.
  - destruct k as [|k]; [by rewrite Nat.add_0_r|].
    cbn [Utf8.rangeFrom drop]. rewrite IH. f_equal. lia.
Qed.

Lemma runes_step (s : bytes) :
  s <> [] ->
  runes s = (Utf8.DecodeRuneInString s).1
            :: runes (drop (Utf8.DecodeRuneInString s).2 s).
Proof.
  intros Hs. pose proof (Decode_width s Hs) as [Hw _].
  destruct s as [|c s]; [done|].
  unfold runes, Utf8.range. cbn [Utf8.rangeFrom].
  destruct (Utf8.DecodeRuneInString (c :: s)) as [r w]. cbn [fst snd map] in *.
  f_equal. rewrite rangeFrom_skip.
  destruct w as [|w]; [lia|]. cbn [drop Nat.sub]. rewrite Nat.sub_0_r.
  apply rangeFrom_index.
Qed.

Lemma mapRest_encMap (m : Z -> Z) (k : nat) (s : bytes) :
  Strings.mapRest m k s = encMap m (drop k s).
Proof.
  unfold Strings.mapRest, encMap, runes, Utf8.range.
  rewrite rangeFrom_skip, !flat_map_concat_map.
  rewrite <- (map_map snd (fun r => Strings.writeMapped (m r))).
  by rewrite (rangeFrom_index _ (0 + k) 0 0), map_map.
Qed.

Lemma mapFrom_skip (m : Z -> Z) (s : bytes) :
  forall k : nat,
    Strings.mapFrom m k s = take k s ++ Strings.mapFrom m 0 (drop k s).
Proof.
  induction s as [|c s IH]; intros k.
  - by rewrite take_nil, drop_nil.
  - destruct k as [|k]; [reflexivity|].
    cbn [Strings.mapFrom take drop app]. by rewrite IH.
Qed.

(** [Map] writes the encodings of the mapped runes: the bytes it keeps are
    the encodings of the runes that the mapping leaves as they are. *)
Lemma Map_encMap (m : Z -> Z) (s : bytes) : Strings.Map m s = encMap m s.
Proof.
  unfold Strings.Map.
  remember (length s) as n eqn:Hn. revert s Hn.
  induction n as [n IH] using lt_wf_ind. intros s Hn.
  destruct s as [|c s]; [reflexivity|].
  assert (Hne : c :: s <> []) by done.
  pose proof (Decode_width _ Hne) as [Hw _].
  pose proof (Decode_valid (c :: s)) as Hv.
  unfold encMap. rewrite (runes_step _ Hne). cbn [flat_map Strings.mapFrom].
  destruct (Utf8.DecodeRuneInString (c :: s)) as [r w] eqn:Hd.
  cbn [fst snd] in *. fold (encMap m (drop w (c :: s))).
  destruct w as [|w]; [lia|]. cbn [drop Nat.sub]. rewrite Nat.sub_0_r.
  destruct ((m r =? r) && negb ((r =? Utf8.RuneError) && (S w =? 1)%nat)) eqn:Hsame.
  - apply andb_true_iff in Hsame as [Hmr Hnot]. apply Z.eqb_eq in Hmr.
    rewrite mapFrom_skip.
    rewrite (IH (length (drop w s))); [|rewrite length_drop; cbn in Hn; lia|done].
    change (c :: take w s ++ encMap m (drop w s))
      with (take (S w) (c :: s) ++ encMap m (drop w s)).
    rewrite (Decode_encode _ _ _ Hd Hne).
    + unfold Strings.writeMapped. rewrite Hmr.
      replace (0 <=? r) with true; [done|].
      symmetry. apply Z.leb_le. destruct Hv. lia.
    + intros [= -> ->]. cbn in Hnot. done.
  - by rewrite mapRest_encMap.
Qed.

Lemma AppendRune_length (r : Z) : (1 <= length (Utf8.AppendRune r))%nat.
Proof.
  unfold Utf8.AppendRune. repeat case_match; cbn; lia.
Qed.

Lemma runes_encode (rs : list Z) :
  Forall validRune rs -> runes (flat_map Utf8.AppendRune rs) = rs.
Proof.
  induction 1 as [|r rs Hr Hrs IH]; [reflexivity|].
  cbn [flat_map]. pose proof (AppendRune_length r).
  rewrite runes_step, (Decode_AppendRune r _ Hr).
  - cbn [fst snd]. by rewrite drop_app_length, IH.
  - destruct (Utf8.AppendRune r); [cbn in *; lia|done].
Qed.

Lemma runes_valid (s : bytes) : Forall validRune (runes s).
Proof.
  apply Forall_forall. intros r Hin. unfold runes in Hin.
  apply list_elem_of_In, in_map_iff in Hin as ([i r'] & <- & Hin).
  apply rangeFrom_decode in Hin as [_ <-]. apply Decode_valid.
Qed.

(** ** ASCII strings *)

Lemma lowerByte_not_upper (c : ascii) :
  Strings.isUpperByte (Strings.lowerByte c) = false.
Proof. destruct c as [[] [] [] [] [] [] [] []]; reflexivity. Qed.

Lemma lowerByte_ascii (c : ascii) :
  (byteZ c <? Utf8.RuneSelf) = true ->
  (byteZ (Strings.lowerByte c) <? Utf8.RuneSelf) = true.
Proof. destruct c as [[] [] [] [] [] [] [] []]; intros H; try done. Qed.

(** On ASCII strings lowering is idempotent whatever the case table is,
    which these strings never reach. *)
Lemma ToLower_idem_ascii (tab : Z -> Z) (s : bytes) :
  isASCII s = true ->
  Strings.ToLower tab (Strings.ToLower tab s) = Strings.ToLower tab s.
Proof.
  unfold isASCII. intros Hascii. unfold Strings.ToLower at 2 3. rewrite Hascii.
  destruct (existsb _ s) eqn:Hup; cbn [negb].
  - unfold Strings.ToLower.
    replace (forallb _ (map Strings.lowerByte s)) with true.
    + replace (existsb _ (map Strings.lowerByte s)) with false; [done|].
      symmetry. clear. induction s as [|c s IH]; [done|].
      cbn. by rewrite lowerByte_not_upper, IH.
    + symmetry. clear Hup. induction s as [|c s IH]; [done|].
      cbn in Hascii |- *. apply andb_true_iff in Hascii as [Hc Hs].
      by rewrite lowerByte_ascii, IH.
  - unfold Strings.ToLower. by rewrite Hascii, Hup.
Qed.

Section ToLower.

Variable tab : Z -> Z.
Hypothesis Htab : lowerCaseTable tab.

Local Abbreviation L := (Unicode.ToLower tab).
Local Abbreviation lowered := (lowered tab).

Lemma ToLower_rune_valid (r : Z) : validRune r -> validRune (L r).
Proof.
  intros Hr. unfold Unicode.ToLower, Unicode.MaxASCII.
  destruct (r <=? 127) eqn:Hascii; bools.
  - unfold validRune, Utf8.MaxRune, Utf8.surrogateMin, Utf8.surrogateMax in *.
    case_match; bools; lia.
  - by apply Htab.
Qed.

Lemma ToLower_rune_idem (r : Z) : validRune r -> L (L r) = L r.
Proof.
  intros Hr. unfold Unicode.ToLower at 2 3. unfold Unicode.MaxASCII.
  destruct (r <=? 127) eqn:Hascii; bools.
  - unfold Unicode.ToLower, Unicode.MaxASCII.
    repeat case_match; bools; lia.
  - by apply Htab.
Qed.

Lemma encMap_lower (s : bytes) :
  encMap L s = flat_map Utf8.AppendRune (map L (runes s)).
Proof.
  unfold encMap. pose proof (runes_valid s) as Hv.
  induction Hv as [|r rs Hr Hrs IH]; [reflexivity|].
  cbn [flat_map map]. rewrite IH. f_equal.
  unfold Strings.writeMapped.
  replace (0 <=? L r) with true; [done|].
  symmetry. apply Z.leb_le. apply ToLower_rune_valid in Hr. destruct Hr. lia.
Qed.

Lemma Map_lowered (s : bytes) : lowered (Strings.Map L s).
Proof.
  rewrite Map_encMap, encMap_lower. exists (map L (runes s)). split; [|done].
  apply Forall_map. eapply Forall_impl; [apply runes_valid|].
  intros r Hr. cbn. split; [by apply ToLower_rune_valid|by apply ToLower_rune_idem].
Qed.

Lemma Map_lowered_id (t : bytes) : lowered t -> Strings.Map L t = t.
Proof.
  intros (rs & Hrs & ->). rewrite Map_encMap, encMap_lower.
  rewrite runes_encode by (eapply Forall_impl; [exact Hrs|by intros r [? _]]).
  f_equal. induction Hrs as [|r rs [_ Hr] _ IH]; [done|].
  cbn [map]. by rewrite Hr, IH.
Qed.

(** An ASCII byte in an encoding is the whole encoding. *)
Lemma AppendRune_ascii_byte (r : Z) (b : ascii) :
  validRune r -> b ∈ Utf8.AppendRune r -> byteZ b < 0x80 -> r = byteZ b.
Proof.
  unfold validRune, Utf8.MaxRune, Utf8.surrogateMin, Utf8.surrogateMax.
  intros [Hr Hs] Hin Hb.
  destruct (Z.le_gt_cases r 0x7F); [|destruct (Z.le_gt_cases r 0x7FF);
    [|destruct (Z.le_gt_cases r 0xFFFF)]].
  - rewrite AppendRune1 in Hin by lia. apply list_elem_of_singleton in Hin as ->.
    rewrite byteZ_byte_of_Z, Z.mod_small; lia.
  - rewrite AppendRune2 in Hin by lia. exfalso.
    repeat (apply elem_of_cons in Hin as [->|Hin]);
      [..|by apply elem_of_nil in Hin];
      rewrite byteZ_byte_of_Z in Hb; Z.div_mod_to_equations; lia.
  - rewrite AppendRune3 in Hin by lia. exfalso.
    repeat (apply elem_of_cons in Hin as [->|Hin]);
      [..|by apply elem_of_nil in Hin];
      rewrite byteZ_byte_of_Z in Hb; Z.div_mod_to_equations; lia.
  - rewrite AppendRune4 in Hin by lia. exfalso.
    repeat (apply elem_of_cons in Hin as [->|Hin]);
      [..|by apply elem_of_nil in Hin];
      rewrite byteZ_byte_of_Z in Hb; Z.div_mod_to_equations; lia.
Qed.

Lemma lowered_no_upper (t : bytes) :
  lowered t -> existsb Strings.isUpperByte t = false.
Proof.
  intros (rs & Hrs & ->).
  destruct (existsb _ _) eqn:Hex; [|done]. exfalso.
  apply existsb_exists in Hex as (b & Hin & Hup).
  apply in_flat_map in Hin as (r & Hr & Hin).
  rewrite Forall_forall in Hrs. apply list_elem_of_In in Hr, Hin.
  destruct (Hrs r Hr) as [Hv Hfix].
  unfold Strings.isUpperByte in Hup. bools.
  assert (r = byteZ b) as -> by (apply AppendRune_ascii_byte; [done..|lia]).
  revert Hfix. unfold Unicode.ToLower, Unicode.MaxASCII.
  repeat case_match; bools; lia.
Qed.

Lemma ToLower_lowered_id (t : bytes) :
  lowered t -> Strings.ToLower tab t = t.
Proof.
  intros Ht. unfold Strings.ToLower.
  rewrite (lowered_no_upper t Ht). cbn [negb].
  destruct (forallb _ t); [done|]. by apply Map_lowered_id.
Qed.

(** Lowering a string twice is lowering it once. *)
Lemma ToLower_idem (s : bytes) :
  Strings.ToLower tab (Strings.ToLower tab s) = Strings.ToLower tab s.
Proof.
  destruct (isASCII s) eqn:Hascii; [by apply ToLower_idem_ascii|].
  unfold Strings.ToLower at 2 3. fold (isASCII s). rewrite Hascii.
  apply ToLower_lowered_id, Map_lowered.
Qed.

End ToLower.

Lemma latin1_lowerCaseTable : lowerCaseTable latin1.
Proof.
  intros r [Hr Hs] Hhi.
  unfold validRune, Unicode.ToLower, latin1, Unicode.MaxASCII, Utf8.MaxRune,
    Utf8.surrogateMin, Utf8.surrogateMax in *.
  repeat case_match; bools; lia.
Qed.

(** ** Prefixes and suffixes *)

Lemma HasPrefix_spec (s p : bytes) :
  Strings.HasPrefix s p = true <-> exists t, s = p ++ t.
Proof.
  unfold Strings.HasPrefix. rewrite andb_true_iff, Nat.leb_le, bool_decide_eq_true.
  split.
  - intros [_ Ht]. exists (drop (length p) s).
    rewrite <- Ht at 1. symmetry. apply take_drop.
  - intros [t ->]. split.
    + rewrite length_app. lia.
    + apply take_app_length.
Qed.

Lemma HasSuffix_spec (s p : bytes) :
  Strings.HasSuffix s p = true <-> exists t, s = t ++ p.
Proof.
  unfold Strings.HasSuffix. rewrite andb_true_iff, Nat.leb_le, bool_decide_eq_true.
  split.
  - intros [_ Ht]. exists (take (length s - length p) s).
    rewrite <- (take_drop (length s - length p) s) at 1. by rewrite Ht.
  - intros [t ->]. split.
    + rewrite length_app. lia.
    + rewrite length_app.
      replace (length t + length p - length p)%nat with (length t) by lia.
      apply drop_app_length.
Qed.

(** C8. [IsPrivate name] is true exactly when [name] starts with two
    underscores and ends with two underscores; the two may overlap, so the
    names of two, three and four underscores are private; the names of the
    repository's test are classified as the test says. *)
Theorem IsPrivate_iff_prefix_and_suffix :
  (forall name : bytes,
      IsPrivate name = true <->
      (exists t, name = str "__" ++ t) /\ (exists t, name = t ++ str "__"))
  /\ IsPrivate (str "____") = true
  /\ IsPrivate (str "___") = true
  /\ IsPrivate (str "__") = true
  /\ IsPrivate (str "_") = false
  /\ IsPrivate (str "__test__") = true
  /\ IsPrivate (str "__test") = false
  /\ IsPrivate (str "test__") = false
  /\ IsPrivate (str "test") = false.
Proof.
  split; [|repeat split; reflexivity].
  intros name. unfold IsPrivate.
  rewrite andb_true_iff, HasPrefix_spec, HasSuffix_spec. reflexivity.
Qed.

(** ** The key of a pair *)

Section PairStore.

Context {caseTable : CaseTable}.

Local Abbreviation lower := (Strings.ToLower toLowerCase).

(** Two keys cut at their first colon. *)
Lemma app_colon_inj (a b x y : bytes) :
  ":"%char ∉ a -> ":"%char ∉ b ->
  a ++ ":"%char :: x = b ++ ":"%char :: y -> a = b /\ x = y.
Proof.
  revert b. induction a as [|c a IH]; intros [|d b] Ha Hb Heq; simpl in Heq.
  - by injection Heq.
  - injection Heq as <- _. exfalso. apply Hb. left.
  - injection Heq as -> _. exfalso. apply Ha. left.
  - injection Heq as -> Heq.
    apply not_elem_of_cons in Ha as [_ Ha], Hb as [_ Hb].
    destruct (IH b Ha Hb Heq) as [-> ->]. done.
Qed.

(** Two keys cut at their last colon. *)
Lemma app_colon_inj_last (a b x y : bytes) :
  ":"%char ∉ x -> ":"%char ∉ y ->
  a ++ ":"%char :: x = b ++ ":"%char :: y -> a = b /\ x = y.
Proof.
  intros Hx Hy Heq. apply (f_equal (fun l => rev l)) in Heq.
  rewrite !rev_app_distr in Heq. cbn [rev] in Heq. rewrite <- !app_assoc in Heq.
  cbn [app] in Heq.
  destruct (app_colon_inj (rev x) (rev y) (rev a) (rev b)) as [Hxy Hab].
  - by rewrite list_elem_of_In, <- in_rev, <- list_elem_of_In.
  - by rewrite list_elem_of_In, <- in_rev, <- list_elem_of_In.
  - exact Heq.
  - rewrite <- (rev_involutive a), <- (rev_involutive b),
      <- (rev_involutive x), <- (rev_involutive y), Hxy, Hab. done.
Qed.

(** C1, as amended. Among the pairs whose lower-cased users hold no colon,
    and among the pairs whose lower-cased names hold no colon, pairs of
    different lower-cased identities have different keys. *)
Theorem PairKey_injective_without_colon (user name user' name' : bytes) :
  ((":"%char ∉ lower user) /\ (":"%char ∉ lower user'))
  \/ ((":"%char ∉ lower name) /\ (":"%char ∉ lower name')) ->
  (lower user, lower name) <> (lower user', lower name') ->
  PairKey user name <> PairKey user' name'.
Proof.
  intros Hcolon Hne Heq. apply Hne. unfold PairKey in Heq.
  destruct Hcolon as [[Hu Hu']|[Hn Hn']].
  - destruct (app_colon_inj _ _ _ _ Hu Hu' Heq) as [-> ->]. done.
  - destruct (app_colon_inj_last _ _ _ _ Hn Hn' Heq) as [-> ->]. done.
Qed.

(** ** The pair store *)

Lemma GetPair_storedValue (db : Bbolt.DB) (user name : bytes) :
  GetPair db user name =
  (db, (default [] (storedValue db user name),
        bool_decide (is_Some (storedValue db user name)), None)).
Proof.
  unfold GetPair, Bbolt.View, Bbolt.Bucket, Bbolt.Get, storedValue.
  cbn [Bbolt.root]. destruct (db !! str "main") as [b|] eqn:Hb.
  - cbn [Bbolt.root]. rewrite Hb. reflexivity.
  - reflexivity.
Qed.

(** The key of a pair is never empty. *)
Lemma PairKey_length (user name : bytes) :
  (length (PairKey user name) =? 0)%nat = false.
Proof.
  apply Nat.eqb_neq. unfold PairKey. rewrite !length_app. simpl. lia.
Qed.

(** [SetPair] without the transaction: the checks of [Put], then the
    bucket "main" (made if absent) with the normalised value under the key of
    the pair. *)
Lemma SetPair_unfold (db : Bbolt.DB) (user name pval : bytes) :
  SetPair db user name pval =
  let b := default ∅ (db !! str "main") in
  if Bbolt.MaxKeySize <? Z.of_nat (length (PairKey user name))
  then (db, Some Bbolt.ErrKeyTooLarge)
  else if Bbolt.MaxValueSize <? Z.of_nat (length (PairValue pval))
  then (db, Some Bbolt.ErrValueTooLarge)
  else match b !! PairKey user name with
       | Some Bbolt.SubBucket => (db, Some Bbolt.ErrIncompatibleValue)
       | _ => (<[str "main" :=
                   <[PairKey user name := Bbolt.Value (PairValue pval)]> b]> db,
               None)
       end.
Proof.
  unfold SetPair, Bbolt.Update, Bbolt.CreateBucketIfNotExists, Bbolt.Put.
  cbn [Bbolt.writable Bbolt.root negb].
  change ((length (str "main") =? 0)%nat) with false. cbv iota zeta.
  destruct (db !! str "main") as [b|] eqn:Hb;
    cbn [Bbolt.writable Bbolt.root negb]; cbv [default from_option id];
    rewrite PairKey_length, ?Hb, ?lookup_insert_eq.
  - repeat case_match; simplify_eq; reflexivity.
  - repeat case_match; simplify_eq; cbn [Bbolt.root];
      rewrite ?insert_insert_eq; try reflexivity.
    all: rewrite lookup_empty in *; simplify_eq.
Qed.

(** What a successful [SetPair] leaves: the bucket "main" with the
    normalised value under the key of the pair, the rest as it was. *)
Lemma SetPair_success (db db' : Bbolt.DB) (user name pval : bytes) :
  SetPair db user name pval = (db', None) ->
  db' = <[str "main" :=
            <[PairKey user name := Bbolt.Value (PairValue pval)]>
              (default ∅ (db !! str "main"))]> db.
Proof.
  rewrite SetPair_unfold. cbv zeta. intros H.
  repeat case_match; simplify_eq; reflexivity.
Qed.

Lemma GetPair_after_SetPair (db db' : Bbolt.DB) (user name value : bytes) :
  SetPair db user name value = (db', None) ->
  GetPair db' user name = (db', (PairValue value, true, None)).
Proof.
  intros H. apply SetPair_success in H. subst db'.
  rewrite GetPair_storedValue. unfold storedValue.
  rewrite !lookup_insert_eq. reflexivity.
Qed.

(** C2. After a successful [SetPair], [GetPair] with the same identifiers
    returns the normalised value (trimmed, with one newline at its end, and
    not lower-cased), [true] and no error. *)
Theorem SetPair_then_GetPair (db db' : Bbolt.DB) (user name value : bytes) :
  SetPair db user name value = (db', None) ->
  GetPair db' user name = (db', (PairValue value, true, None)).
Proof.
  apply GetPair_after_SetPair.
Qed.

(** [DeletePair] without the transaction. *)
Lemma DeletePair_unfold (db : Bbolt.DB) (user name : bytes) :
  DeletePair db user name =
  match db !! str "main" with
  | Some b =>
    match b !! PairKey user name with
    | None => (db, None)
    | Some Bbolt.SubBucket => (db, Some Bbolt.ErrIncompatibleValue)
    | Some (Bbolt.Value _) => (<[str "main" := delete (PairKey user name) b]> db, None)
    end
  | None => (db, None)
  end.
Proof.
  unfold DeletePair, Bbolt.Update, Bbolt.Bucket, Bbolt.Delete.
  cbn [Bbolt.writable Bbolt.root negb].
  destruct (db !! str "main") as [b|] eqn:Hb;
    cbn [Bbolt.writable Bbolt.root negb]; rewrite ?Hb; [|reflexivity].
  repeat case_match; simplify_eq; reflexivity.
Qed.

Lemma DeletePair_storedValue (db db' : Bbolt.DB) (user name : bytes) :
  DeletePair db user name = (db', None) -> storedValue db' user name = None.
Proof.
  rewrite DeletePair_unfold. unfold storedValue. intros H.
  destruct (db !! str "main") as [b|] eqn:Hb.
  - destruct (b !! PairKey user name) as [[v|]|] eqn:Hk; simplify_eq.
    + rewrite lookup_insert_eq, lookup_delete_eq. reflexivity.
    + rewrite Hb, Hk. reflexivity.
  - simplify_eq. rewrite Hb. reflexivity.
Qed.

(** C3. A pair that is absent is reported without an error: [GetPair]
    returns the empty string, [false] and [nil] when no value is stored for
    the pair, so when there is no bucket "main", when the bucket lacks the
    key of the pair, and after a successful [DeletePair] of the pair. *)
Theorem GetPair_absent_is_no_error (db : Bbolt.DB) (user name : bytes) :
  (storedValue db user name = None ->
   GetPair db user name = (db, ([], false, None)))
  /\ (db !! str "main" = None ->
      GetPair db user name = (db, ([], false, None)))
  /\ (forall b, db !! str "main" = Some b -> b !! PairKey user name = None ->
      GetPair db user name = (db, ([], false, None)))
  /\ (forall db', DeletePair db user name = (db', None) ->
      GetPair db' user name = (db', ([], false, None))).
Proof.
  assert (Habs : forall d, storedValue d user name = None ->
                           GetPair d user name = (d, ([], false, None))).
  { intros d Hd. rewrite GetPair_storedValue, Hd. reflexivity. }
  split; [apply Habs|]. split; [|split].
  - intros H. apply Habs. unfold storedValue. by rewrite H.
  - intros b Hb Hk. apply Habs. unfold storedValue. by rewrite Hb, Hk.
  - intros db' H. apply Habs. by eapply DeletePair_storedValue.
Qed.

(** C9. [GetPair] leaves the database as it found it: the buckets, their
    content and whether "main" exists. *)
Theorem GetPair_does_not_mutate (db : Bbolt.DB) (user name : bytes) :
  (GetPair db user name).1 = db.
Proof.
  rewrite GetPair_storedValue. reflexivity.
Qed.

(** C10. The pair store takes empty identifiers: their key is the single
    byte ":", [SetPair] refuses them for no reason of their own (it fails
    only on a value too large or on a nested bucket under the key), and
    after a successful [SetPair] the normalised value is stored under ":" and
    [GetPair] returns it with [true] and no error. *)
Theorem empty_identifiers_are_accepted :
  PairKey [] [] = str ":"
  /\ (forall (db db' : Bbolt.DB) (v : bytes) e,
        SetPair db [] [] v = (db', Some e) ->
        e = Bbolt.ErrValueTooLarge \/ e = Bbolt.ErrIncompatibleValue)
  /\ (forall (db : Bbolt.DB) (v : bytes),
        Z.of_nat (length (PairValue v)) <= Bbolt.MaxValueSize ->
        default ∅ (db !! str "main") !! str ":" <> Some Bbolt.SubBucket ->
        exists db', SetPair db [] [] v = (db', None))
  /\ (forall (db db' : Bbolt.DB) (v : bytes),
        SetPair db [] [] v = (db', None) ->
        (exists b, db' !! str "main" = Some b
                   /\ b !! str ":" = Some (Bbolt.Value (PairValue v)))
        /\ GetPair db' [] [] = (db', (PairValue v, true, None))).
Proof.
  assert (Hk : PairKey [] [] = str ":") by reflexivity.
  split; [exact Hk|]. split; [|split].
  - intros db db' v e. rewrite SetPair_unfold. cbv zeta. rewrite Hk.
    change (Bbolt.MaxKeySize <? Z.of_nat (length (str ":"))) with false.
    intros H. repeat case_match; simplify_eq; auto.
  - intros db v Hv Hb. rewrite SetPair_unfold. cbv zeta. rewrite Hk.
    change (Bbolt.MaxKeySize <? Z.of_nat (length (str ":"))) with false.
    apply Z.ltb_ge in Hv. rewrite Hv.
    repeat case_match; simplify_eq; eauto.
  - intros db db' v H. split.
    + apply SetPair_success in H. subst db'. rewrite Hk.
      eexists. rewrite lookup_insert_eq. split; [reflexivity|].
      by rewrite lookup_insert_eq.
    + by eapply GetPair_after_SetPair.
Qed.

(** ** The normalised value *)

(** Without the runes: a normalised value neither starts nor ends (before
    its newline) with an ASCII space byte. *)
Lemma normalised_bytes (v : bytes) :
  normalised v ->
  exists t, v = t ++ [nl]
            /\ (forall c, head t = Some c -> Strings.asciiSpace c = false)
            /\ (forall c, last t = Some c -> Strings.asciiSpace c = false).
Proof.
  intros (t & -> & Hlead & Htrail). exists t. split; [done|]. split.
  - intros c Hc. destruct t as [|c' t]; simplify_eq/=.
    destruct (Z.lt_ge_cases (byteZ c) 0x80) as [Hlt|Hge].
    + by rewrite <- (leadingSpace_cons c t Hlt).
    + unfold Strings.asciiSpace.
      repeat (apply orb_false_iff; split); apply Z.eqb_neq; lia.
  - intros c Hc. apply last_Some in Hc as [t' ->].
    destruct (Z.lt_ge_cases (byteZ c) 0x80) as [Hlt|Hge].
    + by rewrite <- (trailingSpace_snoc t' c Hlt).
    + unfold Strings.asciiSpace.
      repeat (apply orb_false_iff; split); apply Z.eqb_neq; lia.
Qed.

Lemma PairValue_normalised (v : bytes) : normalised (PairValue v).
Proof.
  exists (Strings.TrimSpace v). split; [reflexivity|]. apply TrimSpace_trimmed.
Qed.

(** C7. For every text [v], [PairValue v] is a text with no space at
    either end followed by exactly one newline; normalising the result again
    gives the same bytes; and a text that is empty or made of spaces only is
    normalised to the single byte of a newline. *)
Theorem PairValue_normalises_idempotently (v : bytes) :
  normalised (PairValue v)
  /\ PairValue (PairValue v) = PairValue v
  /\ (allSpace v = true -> PairValue v = [nl])
  /\ PairValue [] = [nl].
Proof.
  split; [apply PairValue_normalised|]. split; [|split].
  - unfold PairValue at 1 2.
    by rewrite (TrimSpace_trimmed_newline _ (TrimSpace_trimmed v)).
  - intros Hall. unfold PairValue. by rewrite TrimSpace_allSpace.
  - reflexivity.
Qed.

(** ** Keys in lower case *)

(** C6. The key of a pair does not depend on the case of its identifiers:
    it is the key of the lower-cased identifiers, and it is the bytes of
    lower(user), a colon and lower(name). This holds for ASCII identifiers
    whatever the case table is, and for all identifiers when the case table
    sends a rune to a rune that is its own lower case. *)
Theorem PairKey_case_insensitive (user name : bytes) :
  lowerCaseTable toLowerCase \/ (isASCII user = true /\ isASCII name = true) ->
  PairKey user name = PairKey (lower user) (lower name)
  /\ PairKey user name = lower user ++ str ":" ++ lower name.
Proof.
  intros Hcase. split; [|reflexivity]. unfold PairKey.
  destruct Hcase as [Htab|[Hu Hn]].
  - by rewrite !(ToLower_idem _ Htab).
  - by rewrite !ToLower_idem_ascii.
Qed.

(** ** The stored values *)

Lemma SetPair_valuesNormalised (db : Bbolt.DB) (user name pval : bytes) :
  valuesNormalised db -> valuesNormalised (SetPair db user name pval).1.
Proof.
  intros Hdb. rewrite SetPair_unfold. cbv zeta.
  repeat case_match; cbn [fst]; try exact Hdb.
  all: intros b1 key1 e1 Hb Hk; rewrite lookup_insert_eq in Hb; simplify_eq.
  all: destruct (decide (key1 = PairKey user name)) as [->|Hne];
    [rewrite lookup_insert_eq in Hk; simplify_eq; eexists; split;
       [reflexivity|apply PairValue_normalised]|].
  all: rewrite lookup_insert_ne in Hk by done.
  all: destruct (db !! str "main") as [b0|] eqn:Hb0; cbn in Hk;
    [by eapply Hdb|by rewrite lookup_empty in Hk].
Qed.

Lemma DeletePair_valuesNormalised (db : Bbolt.DB) (user name : bytes) :
  valuesNormalised db -> valuesNormalised (DeletePair db user name).1.
Proof.
  intros Hdb. rewrite DeletePair_unfold.
  repeat case_match; cbn [fst]; try exact Hdb.
  intros b1 key1 e1 Hb Hk. rewrite lookup_insert_eq in Hb. simplify_eq.
  apply lookup_delete_Some in Hk as [_ Hk]. by eapply Hdb.
Qed.

Lemma foldl_valuesNormalised (ops : list op) (db : Bbolt.DB) :
  valuesNormalised db -> valuesNormalised (foldl applyOp db ops).
Proof.
  revert db. induction ops as [|o ops IH]; intros db Hdb; [exact Hdb|].
  cbn [foldl]. apply IH. destruct o as [user name pval|user name]; cbn.
  - by apply SetPair_valuesNormalised.
  - by apply DeletePair_valuesNormalised.
Qed.

(** C4. In every store reached from the empty store by [SetPair] and
    [DeletePair] operations, every value in the bucket "main" is a text with
    no space at either end followed by exactly one newline. *)
Theorem reachable_values_normalised (ops : list op) (b : gmap bytes Bbolt.entry)
    (key : bytes) (e : Bbolt.entry) :
  runOps ops !! str "main" = Some b ->
  b !! key = Some e ->
  exists v, e = Bbolt.Value v /\ normalised v.
Proof.
  apply (foldl_valuesNormalised ops ∅).
  intros b' key' e' Hb. by rewrite lookup_empty in Hb.
Qed.

End PairStore.

(** ** The response writers *)









(** * Further properties of the code *)

(** ** White space at the two ends *)

(** Strings of spaces. *)
Lemma spaces_nil : spaces [].
Proof. by exists []. Qed.

Lemma spaces_app (x y : bytes) : spaces x -> spaces y -> spaces (x ++ y).
Proof.
  intros (rs & Hrs & ->) (rs' & Hrs' & ->). exists (rs ++ rs').
  split; [by apply Forall_app|]. by rewrite flat_map_app.
Qed.

Lemma spaces_rune (u : bytes) (r : Z) :
  u <> [] -> Utf8.DecodeRuneInString u = (r, length u) ->
  Unicode.IsSpace r = true -> spaces u.
Proof.
  intros Hu Hd Hr. exists [r]. split.
  - constructor; [|constructor]. split; [|done].
    pose proof (Decode_valid u) as Hv. by rewrite Hd in Hv.
  - cbn. rewrite app_nil_r, <- (Decode_encode u r (length u) Hd Hu).
    + by rewrite firstn_all.
    + intros [= -> _]. done.
Qed.

Lemma spaces_ascii (c : ascii) :
  byteZ c < 0x80 -> Strings.asciiSpace c = true -> spaces [c].
Proof.
  intros Hc Hs. apply (spaces_rune [c] (byteZ c)); [done|by apply Decode_ascii|].
  by rewrite <- asciiSpace_IsSpace.
Qed.

Lemma spaces_allSpace (x : bytes) : spaces x -> allSpace x = true.
Proof.
  intros (rs & Hrs & ->). unfold allSpace. rewrite forallb_snd.
  fold (runes (flat_map Utf8.AppendRune rs)).
  rewrite runes_encode by (eapply Forall_impl; [exact Hrs|by intros r [? _]]).
  apply forallb_forall. intros r Hin. apply list_elem_of_In in Hin.
  rewrite Forall_forall in Hrs. by apply Hrs.
Qed.

(** [TrimLeftFunc] one rune at a time: the indexes of [range] move with the
    string. *)
Lemma rangeFrom_shift (s : bytes) :
  forall i k : nat,
    Utf8.rangeFrom i k s = map (fun jr => ((jr.1 + i)%nat, jr.2)) (Utf8.rangeFrom 0 k s).
Proof.
  induction s as [|c s IH]; intros i k; [done|].
  cbn [Utf8.rangeFrom]. destruct k as [|k].
  - destruct (Utf8.DecodeRuneInString (c :: s)) as [r w]. cbn [map fst snd].
    f_equal. rewrite (IH (S i)), (IH 1%nat), map_map. apply map_ext.
    intros [j r']. cbn. f_equal. lia.
  - rewrite (IH (S i)), (IH 1%nat), map_map. apply map_ext.
    intros [j r']. cbn. f_equal. lia.
Qed.

Lemma find_map_shift (f : Z -> bool) (i : nat) (l : list (nat * Z)) :
  find (fun ir => f ir.2) (map (fun jr => ((jr.1 + i)%nat, jr.2)) l)
  = option_map (fun jr => ((jr.1 + i)%nat, jr.2)) (find (fun ir => f ir.2) l).
Proof.
  induction l as [|[j r] l IH]; [done|]. cbn. destruct (f r); [done|exact IH].
Qed.

Lemma TrimLeftFunc_step (f : Z -> bool) (s : bytes) :
  s <> [] ->
  Strings.TrimLeftFunc s f =
  if f (Utf8.DecodeRuneInString s).1
  then Strings.TrimLeftFunc (drop (Utf8.DecodeRuneInString s).2 s) f
  else s.
Proof.
  intros Hs. pose proof (Decode_width s Hs) as [Hw _].
  destruct s as [|c s]; [done|].
  unfold Strings.TrimLeftFunc, Strings.indexFunc, Utf8.range.
  cbn [Utf8.rangeFrom].
  destruct (Utf8.DecodeRuneInString (c :: s)) as [r w]. cbn [fst snd find] in *.
  destruct (f r); cbn [Bool.eqb]; [|reflexivity].
  destruct w as [|w]; [lia|]. cbn [Nat.sub drop]. rewrite Nat.sub_0_r.
  rewrite rangeFrom_skip. cbn [Nat.add].
  rewrite (rangeFrom_shift _ (S w)).
  rewrite (find_map_shift (fun r => Bool.eqb (f r) false)).
  destruct (find _ (Utf8.rangeFrom 0 0 (drop w s))) as [[j r']|]; cbn; [|done].
  replace (Z.of_nat (j + S w) =? -1) with false by (symmetry; apply Z.eqb_neq; lia).
  replace (Z.of_nat j =? -1) with false by (symmetry; apply Z.eqb_neq; lia).
  rewrite !Nat2Z.id. replace (j + S w)%nat with (S (w + j)) by lia.
  cbn [drop]. by rewrite drop_drop.
Qed.

Lemma TrimLeftFunc_split (s : bytes) :
  exists a, s = a ++ Strings.TrimLeftFunc s Unicode.IsSpace /\ spaces a.
Proof.
  remember (length s) as n eqn:Hn. revert s Hn.
  induction n as [n IH] using lt_wf_ind. intros s Hn.
  destruct (decide (s = [])) as [->|Hs]; [exists []; split; [done|apply spaces_nil]|].
  rewrite (TrimLeftFunc_step _ s Hs).
  pose proof (Decode_width s Hs) as [Hw _].
  destruct (Utf8.DecodeRuneInString s) as [r w] eqn:Hd. cbn [fst snd] in *.
  destruct (Unicode.IsSpace r) eqn:Hr; [|exists []; split; [done|apply spaces_nil]].
  destruct (IH (length (drop w s)) ltac:(rewrite length_drop; lia) (drop w s) eq_refl)
    as (a & Ha & Hsp).
  exists (take w s ++ a). split.
  - rewrite <- app_assoc, <- Ha. by rewrite take_drop.
  - apply spaces_app; [|exact Hsp].
    assert (Hne : (r, w) <> (Utf8.RuneError, 1%nat)) by (intros [= -> _]; done).
    exists [r]. split.
    + constructor; [|constructor]. split; [|done].
      pose proof (Decode_valid s) as Hv. by rewrite Hd in Hv.
    + cbn. rewrite app_nil_r. by apply Decode_encode.
Qed.

(** [TrimRightFunc] cuts off spaces only: the loop of [lastIndexFunc] passes
    over runes that the forward decoder reads as spaces. *)
Lemma lastIndexLoop_spaces (s : bytes) (n : nat) :
  forall e : nat,
    (e <= n)%nat -> (e <= length s)%nat ->
    startsRune (drop e s) -> spaces (drop e s) ->
    exists e' : nat,
      rightEnd s (Strings.lastIndexLoop n s Unicode.IsSpace false e) = Z.of_nat e'
      /\ (e' <= e)%nat /\ spaces (drop e' s).
Proof.
  induction n as [|n IH]; intros e Hn He Hv Hsp.
  - exists 0%nat. cbn. rewrite rightEnd_none. assert (e = 0%nat) as -> by lia.
    repeat split; auto.
  - cbn [Strings.lastIndexLoop].
    destruct (e =? 0)%nat eqn:He0; bools.
    { exists 0%nat. rewrite rightEnd_none. assert (e = 0%nat) as -> by lia.
      repeat split; auto. }
    destruct (Utf8.DecodeLastRuneInString (take e s)) as [r size] eqn:Hd.
    assert (Hne : take e s <> []).
    { intros Hnil. apply (f_equal length) in Hnil. rewrite length_take in Hnil.
      cbn in Hnil. lia. }
    destruct (DecodeLast_spec _ _ _ Hne Hd) as [Hsize Hcase].
    rewrite length_take in Hsize, Hcase.
    replace (e `min` length s)%nat with e in * by lia.
    destruct (Unicode.IsSpace r) eqn:Hfr; cbn [Bool.eqb].
    + destruct Hcase as [Hc|(-> & _)]; [|by rewrite IsSpace_RuneError in Hfr].
      set (u := drop (e - size) (take e s)) in *.
      assert (Hlen : length u = size).
      { subst u. rewrite length_drop, length_take. lia. }
      assert (Hune : u <> []).
      { intros Hnil. rewrite Hnil in Hlen. cbn in Hlen. lia. }
      assert (Hu : drop (e - size) s = u ++ drop e s).
      { subst u. rewrite <- (take_drop e s) at 1.
        rewrite drop_app_le by (rewrite length_take; lia). reflexivity. }
      assert (Hv' : startsRune (drop (e - size) s)).
      { rewrite Hu.
        assert (Hst : startsRune u).
        { eapply Decode_starts; [exact Hc|]. intros [= -> _].
          by rewrite IsSpace_RuneError in Hfr. }
        by destruct u. }
      assert (Hsp' : spaces (drop (e - size) s)).
      { rewrite Hu. apply spaces_app; [|exact Hsp].
        apply (spaces_rune u r); [done|by rewrite Hlen|done]. }
      destruct (IH (e - size)%nat ltac:(lia) ltac:(lia) Hv' Hsp')
        as (e' & Hr & Hle & Hs').
      exists e'. repeat split; auto; lia.
    + exists e. rewrite (rightEnd_last s e r size); auto; try lia.
Qed.

Lemma TrimRightFunc_split (s : bytes) :
  exists b, s = Strings.TrimRightFunc s Unicode.IsSpace ++ b /\ spaces b.
Proof.
  destruct (lastIndexLoop_spaces s (length s) (length s))
    as (e & Hr & _ & Hsp); try lia.
  { by rewrite drop_all. }
  { rewrite drop_all. apply spaces_nil. }
  exists (drop e s). rewrite TrimRightFunc_rightEnd. unfold Strings.lastIndexFunc.
  rewrite Hr, Nat2Z.id, take_drop. done.
Qed.

Lemma trimSpaceStop_split (rs : bytes) :
  exists b, rev rs = Strings.trimSpaceStop rs ++ b /\ spaces b.
Proof.
  induction rs as [|c rs IH]; [exists []; split; [done|apply spaces_nil]|].
  cbn [Strings.trimSpaceStop].
  destruct (Utf8.RuneSelf <=? byteZ c) eqn:Hc; unfold Utf8.RuneSelf in Hc; bools.
  - apply TrimRightFunc_split.
  - destruct (Strings.asciiSpace c) eqn:Hs.
    + destruct IH as (b & Hb & Hsp). exists (b ++ [c]). split.
      * cbn [rev]. rewrite Hb at 1. by rewrite app_assoc.
      * apply spaces_app; [done|]. apply spaces_ascii; [lia|done].
    + exists []. split; [by rewrite app_nil_r|apply spaces_nil].
Qed.

Lemma TrimSpace_split (s : bytes) :
  exists a b, s = a ++ Strings.TrimSpace s ++ b /\ spaces a /\ spaces b.
Proof.
  induction s as [|c s IH].
  - exists [], []. cbn. split; [done|]. split; apply spaces_nil.
  - cbn [Strings.TrimSpace].
    destruct (Utf8.RuneSelf <=? byteZ c) eqn:Hc; unfold Utf8.RuneSelf in Hc; bools.
    + unfold Strings.TrimFunc.
      destruct (TrimLeftFunc_split (c :: s)) as (a & Ha & Hsa).
      destruct (TrimRightFunc_split (Strings.TrimLeftFunc (c :: s) Unicode.IsSpace))
        as (b & Hb & Hsb).
      exists a, b. split; [|done]. rewrite <- Hb. exact Ha.
    + destruct (Strings.asciiSpace c) eqn:Hs.
      * destruct IH as (a & b & Hab & Hsa & Hsb). exists (c :: a), b.
        split; [cbn; by rewrite <- Hab|]. split; [|done].
        apply (spaces_app [c] a); [|done]. apply spaces_ascii; [lia|done].
      * destruct (trimSpaceStop_split (rev (c :: s))) as (b & Hb & Hsb).
        rewrite rev_involutive in Hb. exists [], b. split; [exact Hb|].
        split; [apply spaces_nil|done].
Qed.

(** A trimmed string is left as it is. *)
Lemma TrimSpace_id (t : bytes) : trimmed t -> Strings.TrimSpace t = t.
Proof.
  intros [Hl Hr]. destruct t as [|c t]; [reflexivity|].
  cbn [Strings.TrimSpace].
  destruct (Utf8.RuneSelf <=? byteZ c) eqn:Hc; unfold Utf8.RuneSelf in Hc; bools.
  - unfold Strings.TrimFunc.
    rewrite TrimLeftFunc_id by done.
    apply TrimRightFunc_id; [apply IsSpace_RuneError|done].
  - rewrite leadingSpace_cons in Hl by lia. rewrite Hl.
    destruct (rev (c :: t)) as [|d rt] eqn:Hrev.
    { apply (f_equal length) in Hrev. rewrite length_rev in Hrev. done. }
    assert (Ht : c :: t = rev rt ++ [d]).
    { rewrite <- (rev_involutive (c :: t)), Hrev. reflexivity. }
    cbn [Strings.trimSpaceStop].
    destruct (Utf8.RuneSelf <=? byteZ d) eqn:Hd; unfold Utf8.RuneSelf in Hd; bools.
    + cbn [rev]. rewrite <- Ht.
      apply TrimRightFunc_id; [apply IsSpace_RuneError|done].
    + rewrite Ht, trailingSpace_snoc in Hr by lia. rewrite Hr.
      cbn [rev]. by rewrite <- Ht.
Qed.

(** An ASCII space after a string: the loops of [lastIndexFunc] and
    [indexFunc] see the same runes before it. *)
Lemma lastIndexLoop_app (f : Z -> bool) (truth : bool) (y z : bytes) (n : nat) :
  forall i : nat, (i <= length y)%nat ->
    Strings.lastIndexLoop n (y ++ z) f truth i = Strings.lastIndexLoop n y f truth i.
Proof.
  induction n as [|n IH]; intros i Hi; [done|].
  cbn [Strings.lastIndexLoop]. rewrite take_app_le by done.
  destruct (i =? 0)%nat; [done|].
  destruct (Utf8.DecodeLastRuneInString (take i y)) as [r size].
  destruct (Bool.eqb (f r) truth); [done|]. apply IH. lia.
Qed.

Lemma lastIndexLoop_bound (f : Z -> bool) (truth : bool) (s : bytes) (n : nat) :
  forall i : nat, (i <= length s)%nat ->
    -1 <= Strings.lastIndexLoop n s f truth i < Z.of_nat (Nat.max i 1).
Proof.
  induction n as [|n IH]; intros i Hi; [cbn; lia|].
  cbn [Strings.lastIndexLoop].
  destruct (i =? 0)%nat eqn:Hi0; [lia|]. apply Nat.eqb_neq in Hi0.
  destruct (Utf8.DecodeLastRuneInString (take i s)) as [r size] eqn:Hd.
  assert (Hne : take i s <> []).
  { intros Hnil. apply (f_equal length) in Hnil. rewrite length_take in Hnil.
    cbn in Hnil. lia. }
  destruct (DecodeLast_spec _ _ _ Hne Hd) as [Hsize _].
  destruct (Bool.eqb (f r) truth); [lia|].
  specialize (IH (i - size)%nat ltac:(lia)). lia.
Qed.

Lemma rightEnd_app (y z : bytes) (i : Z) :
  -1 <= i < Z.of_nat (length y) -> startsRune z ->
  rightEnd (y ++ z) i = rightEnd y i.
Proof.
  intros Hi Hz. destruct (decide (i = -1)) as [->|Hn].
  { by rewrite !rightEnd_none. }
  unfold rightEnd.
  rewrite lookup_app_l by lia.
  rewrite drop_app_le by lia.
  rewrite Decode_app_start; [done| |done].
  intros Hnil. apply (f_equal length) in Hnil. rewrite length_drop in Hnil.
  cbn in Hnil. lia.
Qed.

Lemma TrimRightFunc_pad (f : Z -> bool) (y : bytes) (c : ascii) :
  f Utf8.RuneError = false -> byteZ c < 0x80 -> f (byteZ c) = true ->
  Strings.TrimRightFunc (y ++ [c]) f = Strings.TrimRightFunc y f.
Proof.
  intros Hf Hc Hfc.
  rewrite !TrimRightFunc_rightEnd. unfold Strings.lastIndexFunc.
  rewrite length_app. cbn [length]. rewrite Nat.add_1_r.
  cbn [Strings.lastIndexLoop].
  replace (take (S (length y)) (y ++ [c])) with (y ++ [c])
    by (symmetry; apply take_ge; rewrite length_app; cbn; lia).
  rewrite DecodeLast_ascii by done. rewrite Hfc. cbn [Bool.eqb].
  replace (S (length y) - 1)%nat with (length y) by lia.
  change (S (length y) =? 0)%nat with false. cbv iota.
  rewrite lastIndexLoop_app by lia.
  destruct (lastIndexLoop_cut f y (length y) Hf (length y))
    as (e & Hr & Hle & _); try lia.
  { by rewrite drop_all. }
  pose proof (lastIndexLoop_bound f false y (length y) (length y) ltac:(lia)) as Hb.
  destruct y as [|d y]; [reflexivity|].
  rewrite rightEnd_app.
  - rewrite Hr, Nat2Z.id. by rewrite take_app_le.
  - cbn [length] in *. lia.
  - cbn. apply RuneStart_spec. lia.
Qed.

Lemma range_snoc (x : bytes) (c : ascii) :
  byteZ c < 0x80 ->
  forall i k : nat, (k <= length x)%nat ->
    Utf8.rangeFrom i k (x ++ [c])
    = Utf8.rangeFrom i k x ++ [((i + length x)%nat, byteZ c)].
Proof.
  intros Hc. induction x as [|d x IH]; intros i k Hk.
  - cbn in Hk. assert (k = 0%nat) as -> by lia. cbn [app Utf8.rangeFrom length].
    rewrite Decode_ascii by done. by rewrite Nat.add_0_r.
  - cbn [app Utf8.rangeFrom]. destruct k as [|k].
    + change (d :: x ++ [c]) with ((d :: x) ++ [c]).
      rewrite Decode_app_start; [|done|cbn; apply RuneStart_spec; lia].
      pose proof (Decode_width (d :: x) ltac:(done)) as [Hw _].
      destruct (Utf8.DecodeRuneInString (d :: x)) as [r w]. cbn [snd] in Hw.
      cbn [length] in Hw.
      rewrite IH by lia. cbn [app length].
      by replace (S i + length x)%nat with (i + S (length x))%nat by lia.
    + rewrite IH by (cbn in Hk; lia). cbn [length].
      by replace (S i + length x)%nat with (i + S (length x))%nat by lia.
Qed.

Lemma find_snoc_none {A} (p : A -> bool) (l : list A) (a : A) :
  p a = false -> find p (l ++ [a]) = find p l.
Proof.
  intros Ha. induction l as [|b l IH]; cbn; [by rewrite Ha|].
  destruct (p b); [done|exact IH].
Qed.

Lemma rangeFrom_lt (s : bytes) :
  forall (i k j : nat) (r : Z),
    In (j, r) (Utf8.rangeFrom i k s) -> (i <= j < i + length s)%nat.
Proof.
  induction s as [|c s IH]; intros i k j r Hin; [done|].
  cbn [Utf8.rangeFrom length] in *. destruct k as [|k].
  - destruct (Utf8.DecodeRuneInString (c :: s)) as [r' w].
    destruct Hin as [[= <- <-]|Hin]; [lia|]. apply IH in Hin. lia.
  - apply IH in Hin. lia.
Qed.

Lemma TrimLeftFunc_pad (y : bytes) (c : ascii) :
  byteZ c < 0x80 -> Strings.asciiSpace c = true ->
  Strings.TrimLeftFunc (y ++ [c]) Unicode.IsSpace
  = if decide (Strings.TrimLeftFunc y Unicode.IsSpace = [])
    then [] else Strings.TrimLeftFunc y Unicode.IsSpace ++ [c].
Proof.
  intros Hc Hs.
  unfold Strings.TrimLeftFunc, Strings.indexFunc in *. unfold Utf8.range in *.
  rewrite range_snoc by (done || lia).
  rewrite find_snoc_none by (cbn; by rewrite <- asciiSpace_IsSpace, Hs).
  destruct (find _ (Utf8.rangeFrom 0 0 y)) as [[i r]|] eqn:Hf.
  - replace (Z.of_nat i =? -1) with false by (symmetry; apply Z.eqb_neq; lia).
    rewrite Nat2Z.id.
    assert (Hi : (i < length y)%nat).
    { apply find_some in Hf as [Hin _]. apply rangeFrom_lt in Hin. lia. }
    rewrite drop_app_le by lia.
    destruct (decide (drop i y = [])) as [Hnil|]; [|done].
    apply (f_equal length) in Hnil. rewrite length_drop in Hnil. cbn in Hnil. lia.
  - cbn. by rewrite decide_True.
Qed.

Lemma TrimFunc_pad (y : bytes) (c : ascii) :
  byteZ c < 0x80 -> Strings.asciiSpace c = true ->
  Strings.TrimFunc (y ++ [c]) Unicode.IsSpace = Strings.TrimFunc y Unicode.IsSpace.
Proof.
  intros Hc Hs. unfold Strings.TrimFunc. rewrite TrimLeftFunc_pad by done.
  destruct (decide _) as [->|_]; [done|].
  apply TrimRightFunc_pad; [apply IsSpace_RuneError|done|].
  by rewrite <- asciiSpace_IsSpace.
Qed.

Lemma TrimSpace_snoc_space (s : bytes) (c : ascii) :
  byteZ c < 0x80 -> Strings.asciiSpace c = true ->
  Strings.TrimSpace (s ++ [c]) = Strings.TrimSpace s.
Proof.
  intros Hc Hs. induction s as [|d s IH].
  - cbn. replace (Utf8.RuneSelf <=? byteZ c) with false
      by (symmetry; apply Z.leb_gt; unfold Utf8.RuneSelf; lia).
    by rewrite Hs.
  - cbn [app Strings.TrimSpace].
    destruct (Utf8.RuneSelf <=? byteZ d) eqn:Hd.
    + change (d :: s ++ [c]) with ((d :: s) ++ [c]). by apply TrimFunc_pad.
    + destruct (Strings.asciiSpace d); [exact IH|].
      change (d :: s ++ [c]) with ((d :: s) ++ [c]). rewrite rev_app_distr.
      cbn [rev app Strings.trimSpaceStop].
      replace (Utf8.RuneSelf <=? byteZ c) with false
        by (symmetry; apply Z.leb_gt; unfold Utf8.RuneSelf; lia).
      by rewrite Hs.
Qed.

Lemma TrimSpace_pad (a v b : bytes) :
  asciiSpaces a = true -> asciiSpaces b = true ->
  Strings.TrimSpace (a ++ v ++ b) = Strings.TrimSpace v.
Proof.
  intros Ha Hb. induction a as [|c a IH].
  - cbn [app]. clear Ha. induction b as [|c b IHb] using rev_ind.
    + by rewrite app_nil_r.
    + unfold asciiSpaces in Hb. rewrite forallb_app in Hb. cbn in Hb. bools.
      rewrite app_assoc, TrimSpace_snoc_space by (done || lia). by apply IHb.
  - cbn in Ha. bools. cbn [app Strings.TrimSpace].
    replace (Utf8.RuneSelf <=? byteZ c) with false
      by (symmetry; apply Z.leb_gt; unfold Utf8.RuneSelf; lia).
    replace (Strings.asciiSpace c) with true by (symmetry; tauto). by apply IH.
Qed.

(** ** Keys are in lower case *)

(** On ASCII strings [ToLower] lowers byte by byte. *)
Lemma ToLower_ascii (tab : Z -> Z) (s : bytes) :
  isASCII s = true -> Strings.ToLower tab s = map Strings.lowerByte s.
Proof.
  unfold isASCII, Strings.ToLower. intros ->.
  destruct (existsb _ s) eqn:Hup; cbn [negb]; [done|].
  induction s as [|c s IH]; [done|]. cbn in Hup |- *.
  apply orb_false_iff in Hup as [Hc Hs].
  unfold Strings.lowerByte at 1. rewrite Hc. f_equal. by apply IH.
Qed.

Lemma map_lowerByte_ascii (s : bytes) :
  isASCII s = true -> isASCII (map Strings.lowerByte s) = true.
Proof.
  unfold isASCII. induction s as [|c s IH]; [done|]. cbn.
  intros [Hc Hs]%andb_true_iff. by rewrite lowerByte_ascii, IH.
Qed.

Lemma map_lowerByte_no_upper (s : bytes) :
  existsb Strings.isUpperByte (map Strings.lowerByte s) = false.
Proof.
  induction s as [|c s IH]; [done|]. cbn. by rewrite lowerByte_not_upper, IH.
Qed.

(** An ASCII string without upper-case letters is in lower case. *)
Lemma ascii_lowered (tab : Z -> Z) (t : bytes) :
  isASCII t = true -> existsb Strings.isUpperByte t = false -> lowered tab t.
Proof.
  unfold isASCII. intros Ha Hu. exists (map byteZ t).
  induction t as [|c t IH]; [by split; [constructor|]|].
  cbn in Ha, Hu. apply andb_true_iff in Ha as [Hc Ha].
  apply orb_false_iff in Hu as [Huc Hu].
  destruct (IH Ha Hu) as [Hf He]. unfold Utf8.RuneSelf in Hc.
  pose proof (byteZ_range c). unfold Strings.isUpperByte in Huc. bools.
  all: split.
  all: try (constructor; [|exact Hf]; split;
    [unfold validRune, Utf8.MaxRune, Utf8.surrogateMin, Utf8.surrogateMax; lia
    |unfold Unicode.ToLower, Unicode.MaxASCII; repeat case_match; bools; lia]).
  all: cbn [map flat_map]; rewrite AppendRune1, byte_of_Z_byteZ by lia;
    cbn; by f_equal.
Qed.

Lemma lowered_app (tab : Z -> Z) (x y : bytes) :
  lowered tab x -> lowered tab y -> lowered tab (x ++ y).
Proof.
  intros (rs & Hrs & ->) (rs' & Hrs' & ->). exists (rs ++ rs').
  split; [by apply Forall_app|]. by rewrite flat_map_app.
Qed.

Lemma ToLower_lowered (tab : Z -> Z) (s : bytes) :
  lowerCaseTable tab -> lowered tab (Strings.ToLower tab s).
Proof.
  intros Htab. destruct (isASCII s) eqn:Ha.
  - rewrite ToLower_ascii by done.
    apply ascii_lowered; [by apply map_lowerByte_ascii|apply map_lowerByte_no_upper].
  - unfold Strings.ToLower. fold (isASCII s). rewrite Ha. by apply Map_lowered.
Qed.

Section KeyFacts.

Context {caseTable : CaseTable}.

Local Abbreviation lower := (Strings.ToLower toLowerCase).

(** X1. The key of a pair is in lower case: lowering it again gives the same
    bytes, it holds no ASCII upper-case letter, and it is made of runes that
    are their own lower case. This holds for ASCII identifiers whatever the
    case table is, and for all identifiers when the case table sends a rune
    to a rune that is its own lower case. *)
Theorem PairKey_is_lower_case (user name : bytes) :
  lowerCaseTable toLowerCase \/ (isASCII user = true /\ isASCII name = true) ->
  lower (PairKey user name) = PairKey user name
  /\ existsb Strings.isUpperByte (PairKey user name) = false
  /\ lowered toLowerCase (PairKey user name).
Proof.
  intros Hcase.
  assert (Hl : lowered toLowerCase (PairKey user name)
               /\ (lowerCaseTable toLowerCase
                   \/ isASCII (PairKey user name) = true)).
  { unfold PairKey. destruct Hcase as [Htab|[Hu Hn]].
    - split; [|by left]. apply lowered_app; [by apply ToLower_lowered|].
      apply lowered_app; [|by apply ToLower_lowered].
      by apply ascii_lowered.
    - rewrite !ToLower_ascii by done.
      assert (Ha : isASCII (map Strings.lowerByte user ++ str ":"
                            ++ map Strings.lowerByte name) = true).
      { unfold isASCII. rewrite !forallb_app.
        fold (isASCII (map Strings.lowerByte user)).
        fold (isASCII (map Strings.lowerByte name)).
        by rewrite !map_lowerByte_ascii. }
      split; [|by right]. apply ascii_lowered; [exact Ha|].
      by rewrite !existsb_app, !map_lowerByte_no_upper. }
  destruct Hl as [Hl Hc].
  pose proof (lowered_no_upper _ _ Hl) as Hup.
  split; [|by split].
  destruct Hc as [Htab|Ha]; [by apply ToLower_lowered_id|].
  rewrite ToLower_ascii by done. revert Hup.
  generalize (PairKey user name). intros k.
  induction k as [|c k IH]; [done|]. cbn.
  intros [Hc Hk]%orb_false_iff. unfold Strings.lowerByte at 1. rewrite Hc.
  f_equal. by apply IH.
Qed.

(** X2. For ASCII identifiers the key is the bytes of the user with the
    letters A to Z lowered, a colon, and the bytes of the name lowered the
    same way, whatever the case table is; it has one byte more than the two
    identifiers together, and it is ASCII. *)
Theorem PairKey_ascii_bytes (user name : bytes) :
  isASCII user = true -> isASCII name = true ->
  PairKey user name
  = map Strings.lowerByte user ++ str ":" ++ map Strings.lowerByte name
  /\ length (PairKey user name) = (length user + 1 + length name)%nat
  /\ isASCII (PairKey user name) = true.
Proof.
  intros Hu Hn. unfold PairKey. rewrite !ToLower_ascii by done.
  split; [done|]. split.
  - rewrite !length_app, !length_map. cbn. lia.
  - unfold isASCII. rewrite !forallb_app.
    fold (isASCII (map Strings.lowerByte user)).
    fold (isASCII (map Strings.lowerByte name)).
    by rewrite !map_lowerByte_ascii.
Qed.

End KeyFacts.

(** ** Values keep their text *)

(** X3. A text with no space at either end is normalised to itself followed
    by a newline, and trimming the normalised value gives the text back. *)
Theorem PairValue_of_trimmed_text (t : bytes) :
  trimmed t ->
  PairValue t = t ++ [nl] /\ Strings.TrimSpace (PairValue t) = t.
Proof.
  intros Ht. unfold PairValue. rewrite TrimSpace_id by done.
  split; [done|]. by apply TrimSpace_trimmed_newline.
Qed.

(** X4. Normalising removes spaces at the two ends and nothing else: every
    text is a run of spaces, then the normalised value without its newline,
    then a run of spaces; the normalised value is at most one byte longer
    than the text. *)
Theorem PairValue_keeps_content (text : bytes) :
  exists a t b,
    text = a ++ t ++ b /\ PairValue text = t ++ [nl]
    /\ allSpace a = true /\ allSpace b = true /\ trimmed t
    /\ (length (PairValue text) <= length text + 1)%nat.
Proof.
  destruct (TrimSpace_split text) as (a & b & Hab & Ha & Hb).
  exists a, (Strings.TrimSpace text), b.
  split; [exact Hab|]. split; [reflexivity|].
  split; [by apply spaces_allSpace|]. split; [by apply spaces_allSpace|].
  split; [apply TrimSpace_trimmed|].
  unfold PairValue. rewrite length_app. cbn [length].
  apply (f_equal length) in Hab. rewrite !length_app in Hab. lia.
Qed.

Section ValueFacts.

Context {caseTable : CaseTable}.

(** X5. ASCII spaces (tab, newline, vertical tab, form feed, carriage return
    and space) put before and after a text do not change its normalised
    value, and [SetPair] with the padded text is [SetPair] with the text. *)
Theorem PairValue_ignores_padding (a v b : bytes) :
  asciiSpaces a = true -> asciiSpaces b = true ->
  PairValue (a ++ v ++ b) = PairValue v
  /\ (forall db user name,
        SetPair db user name (a ++ v ++ b) = SetPair db user name v).
Proof.
  intros Ha Hb.
  assert (Hv : PairValue (a ++ v ++ b) = PairValue v)
    by (unfold PairValue; by rewrite TrimSpace_pad).
  split; [exact Hv|]. intros db user name. by rewrite !SetPair_unfold, Hv.
Qed.

End ValueFacts.

(** ** Outcomes of the store operations *)

Section StoreFacts.

Context {caseTable : CaseTable}.

Local Abbreviation lower := (Strings.ToLower toLowerCase).

(** X7. Setting a pair twice with the same text is setting it once: the
    second call returns the same database and the same error as the
    first. *)
Theorem SetPair_idempotent (db : Bbolt.DB) (user name pval : bytes) :
  SetPair (SetPair db user name pval).1 user name pval = SetPair db user name pval.
Proof.
  rewrite (SetPair_unfold db). cbv zeta.
  destruct (Bbolt.MaxKeySize <? _) eqn:Hk; [cbn [fst]; by rewrite SetPair_unfold, Hk|].
  destruct (Bbolt.MaxValueSize <? _) eqn:Hv;
    [cbn [fst]; by rewrite SetPair_unfold; cbv zeta; rewrite Hk, Hv|].
  destruct (default ∅ (db !! str "main") !! PairKey user name) as [[v|]|] eqn:Hb;
    cbn [fst]; rewrite SetPair_unfold; cbv zeta; rewrite Hk, Hv.
  all: rewrite ?lookup_insert_eq; cbn [default from_option id];
    rewrite ?lookup_insert_eq, ?Hb, ?insert_insert_eq; try reflexivity.
Qed.


(** X8. The last write wins: after two successful [SetPair]s on a pair the
    database is the one that the second alone gives, and [GetPair] returns
    the second value, normalised. *)
Theorem SetPair_last_write_wins (db db1 db2 : Bbolt.DB) (user name v1 v2 : bytes) :
  SetPair db user name v1 = (db1, None) ->
  SetPair db1 user name v2 = (db2, None) ->
  SetPair db user name v2 = (db2, None)
  /\ GetPair db2 user name = (db2, (PairValue v2, true, None)).
Proof.
  intros H1 H2. split; [|by eapply GetPair_after_SetPair].
  pose proof (SetPair_success _ _ _ _ _ H1) as ->.
  revert H1 H2. rewrite !SetPair_unfold. cbv zeta.
  rewrite !lookup_insert_eq. cbn [default from_option id].
  rewrite lookup_insert_eq.
  repeat case_match; intros; simplify_eq; rewrite !insert_insert_eq; done.
Qed.

(** The other keys and the other buckets. *)
Lemma storedValue_entryAt (db : Bbolt.DB) (user name : bytes) :
  storedValue db user name =
  match entryAt db (PairKey user name) with
  | Some (Bbolt.Value v) => Some v
  | _ => None
  end.
Proof.
  unfold storedValue, entryAt. destruct (db !! str "main"); reflexivity.
Qed.

Lemma SetPair_entryAt_other (db : Bbolt.DB) (user name pval key : bytes) :
  key <> PairKey user name ->
  entryAt (SetPair db user name pval).1 key = entryAt db key.
Proof.
  intros Hne. rewrite SetPair_unfold. cbv zeta. unfold entryAt.
  destruct (db !! str "main") as [b|] eqn:Hb; cbn [default from_option id].
  all: repeat case_match; cbn [fst]; rewrite ?Hb; try reflexivity.
  all: rewrite lookup_insert_eq; cbn; rewrite lookup_insert_ne by done.
  all: by rewrite ?lookup_empty.
Qed.

Lemma SetPair_other_bucket (db : Bbolt.DB) (user name pval bname : bytes) :
  bname <> str "main" -> (SetPair db user name pval).1 !! bname = db !! bname.
Proof.
  intros Hne. rewrite SetPair_unfold. cbv zeta.
  repeat case_match; cbn [fst]; try reflexivity.
  all: by rewrite lookup_insert_ne.
Qed.

(** X9. [SetPair] does not touch a pair with another key: its stored value
    and what [GetPair] returns for it are as before. *)
Theorem SetPair_leaves_other_pairs (db : Bbolt.DB) (user name pval user' name' : bytes) :
  PairKey user' name' <> PairKey user name ->
  storedValue (SetPair db user name pval).1 user' name' = storedValue db user' name'
  /\ (GetPair (SetPair db user name pval).1 user' name').2 = (GetPair db user' name').2.
Proof.
  intros Hne.
  assert (Hs : storedValue (SetPair db user name pval).1 user' name'
               = storedValue db user' name').
  { by rewrite !storedValue_entryAt, SetPair_entryAt_other. }
  split; [exact Hs|]. by rewrite !GetPair_storedValue, Hs.
Qed.

Lemma DeletePair_entryAt_other (db : Bbolt.DB) (user name key : bytes) :
  key <> PairKey user name ->
  entryAt (DeletePair db user name).1 key = entryAt db key.
Proof.
  intros Hne. rewrite DeletePair_unfold. unfold entryAt.
  destruct (db !! str "main") as [b|] eqn:Hb; [|by cbn [fst]; rewrite Hb].
  destruct (b !! PairKey user name) as [[v|]|]; cbn [fst]; rewrite ?Hb; try reflexivity.
  rewrite lookup_insert_eq. cbn. by rewrite lookup_delete_ne.
Qed.

Lemma DeletePair_other_bucket (db : Bbolt.DB) (user name bname : bytes) :
  bname <> str "main" -> (DeletePair db user name).1 !! bname = db !! bname.
Proof.
  intros Hne. rewrite DeletePair_unfold.
  repeat case_match; cbn [fst]; try reflexivity. by rewrite lookup_insert_ne.
Qed.

(** X12. [DeletePair] does not touch a pair with another key: its stored
    value and what [GetPair] returns for it are as before. *)
Theorem DeletePair_leaves_other_pairs (db : Bbolt.DB) (user name user' name' : bytes) :
  PairKey user' name' <> PairKey user name ->
  storedValue (DeletePair db user name).1 user' name' = storedValue db user' name'
  /\ (GetPair (DeletePair db user name).1 user' name').2 = (GetPair db user' name').2.
Proof.
  intros Hne.
  assert (Hs : storedValue (DeletePair db user name).1 user' name'
               = storedValue db user' name').
  { by rewrite !storedValue_entryAt, DeletePair_entryAt_other. }
  split; [exact Hs|]. by rewrite !GetPair_storedValue, Hs.
Qed.


(** X11. Deleting a pair twice is deleting it once: the second call returns
    the same database and the same error as the first. *)
Theorem DeletePair_idempotent (db : Bbolt.DB) (user name : bytes) :
  DeletePair (DeletePair db user name).1 user name = DeletePair db user name.
Proof.
  rewrite (DeletePair_unfold db).
  destruct (db !! str "main") as [b|] eqn:Hb; cbn [fst];
    [|by rewrite DeletePair_unfold, Hb].
  destruct (b !! PairKey user name) as [[v|]|] eqn:Hk; cbn [fst];
    rewrite DeletePair_unfold; rewrite ?Hb, ?Hk; try reflexivity.
  rewrite lookup_insert_eq, lookup_delete_eq. reflexivity.
Qed.

(** X13. Deleting a pair right after setting it leaves the bucket "main"
    without the key; when the bucket was there and had no entry under the
    key, the database is back to what it was before the [SetPair]. *)
Theorem SetPair_then_DeletePair (db db1 : Bbolt.DB) (user name pval : bytes) :
  SetPair db user name pval = (db1, None) ->
  DeletePair db1 user name
  = (<[str "main" := delete (PairKey user name) (default ∅ (db !! str "main"))]> db,
     None)
  /\ (forall b, db !! str "main" = Some b -> b !! PairKey user name = None ->
        DeletePair db1 user name = (db, None)).
Proof.
  intros H. pose proof (SetPair_success _ _ _ _ _ H) as ->.
  assert (Hd : DeletePair
                 (<[str "main" := <[PairKey user name := Bbolt.Value (PairValue pval)]>
                                    (default ∅ (db !! str "main"))]> db) user name
               = (<[str "main" := delete (PairKey user name)
                                    (default ∅ (db !! str "main"))]> db, None)).
  { rewrite DeletePair_unfold, !lookup_insert_eq.
    by rewrite insert_insert_eq, delete_insert_eq. }
  split; [exact Hd|].
  intros b Hb Hk. rewrite Hd, Hb. cbn [default from_option id].
  by rewrite delete_id, insert_id.
Qed.

(** The operations write to the bucket "main" only, and never remove it. *)
Lemma applyOp_other_bucket (db : Bbolt.DB) (o : op) (bname : bytes) :
  bname <> str "main" -> applyOp db o !! bname = db !! bname.
Proof.
  intros Hne. destruct o; cbn.
  - by apply SetPair_other_bucket.
  - by apply DeletePair_other_bucket.
Qed.

Lemma applyOp_keeps_main (db : Bbolt.DB) (o : op) :
  is_Some (db !! str "main") -> is_Some (applyOp db o !! str "main").
Proof.
  intros [b Hb]. destruct o as [user name pval|user name]; cbn.
  - rewrite SetPair_unfold. cbv zeta.
    repeat case_match; cbn [fst]; rewrite ?lookup_insert_eq, ?Hb; eauto.
  - rewrite DeletePair_unfold, Hb.
    repeat case_match; cbn [fst]; rewrite ?lookup_insert_eq, ?Hb; eauto.
Qed.

(** X16. The store operations write to the bucket "main" only: after any
    sequence of [SetPair]s and [DeletePair]s every other bucket is as before,
    and a bucket "main" that was there is still there; a successful [SetPair]
    leaves a bucket "main"; and [DeletePair] on a database without the bucket
    changes nothing and returns no error: it does not create the bucket. *)
Theorem only_bucket_main_is_written (ops : list op) (db : Bbolt.DB) :
  (forall bname, bname <> str "main" ->
                 foldl applyOp db ops !! bname = db !! bname)
  /\ (is_Some (db !! str "main") -> is_Some (foldl applyOp db ops !! str "main"))
  /\ (forall user name pval db',
        SetPair db user name pval = (db', None) -> is_Some (db' !! str "main"))
  /\ (forall user name,
        db !! str "main" = None ->
        DeletePair db user name = (db, None)).
Proof.
  split; [|split; [|split]].
  - revert db. induction ops as [|o ops IH]; intros db bname Hne; [done|].
    cbn [foldl]. by rewrite IH, applyOp_other_bucket.
  - revert db. induction ops as [|o ops IH]; intros db Hm; [done|].
    cbn [foldl]. by apply IH, applyOp_keeps_main.
  - intros user name pval db' H. apply SetPair_success in H as ->.
    rewrite lookup_insert_eq. eauto.
  - intros user name Hm. by rewrite DeletePair_unfold, Hm.
Qed.

(** X15. Identifiers with the same lower case name the same pair:
    [SetPair], [GetPair] and [DeletePair] give the same results for the two
    spellings, and a pair set under one spelling is read under the other. *)
Theorem case_variants_share_pair (db : Bbolt.DB) (user name user' name' pval : bytes) :
  lower user = lower user' -> lower name = lower name' ->
  SetPair db user name pval = SetPair db user' name' pval
  /\ GetPair db user name = GetPair db user' name'
  /\ DeletePair db user name = DeletePair db user' name'
  /\ (forall db', SetPair db user name pval = (db', None) ->
        GetPair db' user' name' = (db', (PairValue pval, true, None))).
Proof.
  intros Hu Hn.
  assert (Hk : PairKey user name = PairKey user' name')
    by (unfold PairKey; by rewrite Hu, Hn).
  split; [|split; [|split]].
  - by rewrite !SetPair_unfold, Hk.
  - rewrite !GetPair_storedValue. unfold storedValue. by rewrite Hk.
  - by rewrite !DeletePair_unfold, Hk.
  - intros db' H. apply SetPair_success in H as ->.
    rewrite GetPair_storedValue. unfold storedValue.
    by rewrite <- Hk, !lookup_insert_eq.
Qed.

(** X14. [GetPair] returns a stored value as it is stored, with [true], and
    the empty string with [false] for a key that names a nested bucket;
    conversely a result with [true] is the value stored under the key, a
    result with [false] has the empty string, and the error is nil in both
    cases. *)
Theorem GetPair_reads_entry (db : Bbolt.DB) (user name : bytes) :
  (forall v, entryAt db (PairKey user name) = Some (Bbolt.Value v) ->
     GetPair db user name = (db, (v, true, None)))
  /\ (entryAt db (PairKey user name) = Some Bbolt.SubBucket ->
      GetPair db user name = (db, ([], false, None)))
  /\ (forall v e, GetPair db user name = (db, (v, true, e)) ->
        entryAt db (PairKey user name) = Some (Bbolt.Value v) /\ e = None)
  /\ (forall v e, GetPair db user name = (db, (v, false, e)) ->
        v = [] /\ e = None).
Proof.
  rewrite GetPair_storedValue, storedValue_entryAt.
  destruct (entryAt db (PairKey user name)) as [[v0|]|]; cbn.
  all: repeat split; intros; simplify_eq; done.
Qed.

(** X17. Every value that [GetPair] returns with [true] from a store reached
    from the empty store by [SetPair]s and [DeletePair]s is normalised; it is
    not empty and its last byte is a newline. *)
Theorem GetPair_reachable_normalised (ops : list op) (user name v : bytes)
    (e : option Bbolt.error) :
  (GetPair (runOps ops) user name).2 = (v, true, e) ->
  normalised v /\ v <> [] /\ last v = Some nl.
Proof.
  rewrite GetPair_storedValue. cbn [snd]. unfold storedValue.
  assert (Hinv : valuesNormalised (runOps ops)).
  { apply foldl_valuesNormalised. intros b k e' Hb. by rewrite lookup_empty in Hb. }
  destruct (runOps ops !! str "main") as [b|] eqn:Hb; [|done].
  destruct (b !! PairKey user name) as [[v0|]|] eqn:Hk; [|done..].
  cbn. intros [= <- _]. destruct (Hinv b _ _ Hb Hk) as (v' & [= <-] & Hn).
  split; [exact Hn|]. destruct Hn as (t & -> & _).
  split; [by destruct t|apply last_snoc].
Qed.

(** The pairs after a sequence of operations are those of a map under the
    same operations. *)
Lemma pairsOf_applyOp (db : Bbolt.DB) (o : op) :
  valuesNormalised db -> pairsOf (applyOp db o) = mapOp (pairsOf db) o.
Proof.
  intros Hinv. destruct o as [user name pval|user name]; cbn [applyOp mapOp].
  - rewrite SetPair_unfold. cbv zeta.
    destruct (Bbolt.MaxKeySize <? _) eqn:Hk; [reflexivity|].
    destruct (Bbolt.MaxValueSize <? _) eqn:Hv; [reflexivity|]. cbn [orb fst].
    assert (Hnew : pairsOf (<[str "main" := <[PairKey user name
                              := Bbolt.Value (PairValue pval)]>
                              (default ∅ (db !! str "main"))]> db)
                   = <[PairKey user name := PairValue pval]> (pairsOf db)).
    { unfold pairsOf. rewrite lookup_insert_eq.
      rewrite (omap_insert_Some _ _ _ _ (PairValue pval)) by done.
      destruct (db !! str "main"); cbn; [done|by rewrite omap_empty]. }
    destruct (default ∅ (db !! str "main") !! PairKey user name)
      as [[v|]|] eqn:Hb; cbn [fst]; try exact Hnew.
    exfalso. destruct (db !! str "main") as [b|] eqn:Hm; cbn in Hb;
      [|by rewrite lookup_empty in Hb].
    by destruct (Hinv b _ _ Hm Hb) as (v & ? & _).
  - rewrite DeletePair_unfold. unfold pairsOf.
    destruct (db !! str "main") as [b|] eqn:Hm; cbn [fst]; rewrite ?Hm;
      [|by rewrite delete_empty].
    destruct (b !! PairKey user name) as [[v|]|] eqn:Hb; cbn [fst]; rewrite ?Hm.
    + by rewrite lookup_insert_eq, omap_delete.
    + symmetry. apply delete_id. by rewrite lookup_omap, Hb.
    + symmetry. apply delete_id. by rewrite lookup_omap, Hb.
Qed.

(** X18. The store behaves as a map from keys to values: after any sequence
    of [SetPair]s and [DeletePair]s from the empty store, its pairs are those
    of the empty map under the same sequence of insertions and deletions (a
    [SetPair] beyond the size limits left out), and [GetPair] returns the
    lookup in that map. *)
Theorem store_refines_map (ops : list op) (user name : bytes) :
  pairsOf (runOps ops) = foldl mapOp ∅ ops
  /\ (GetPair (runOps ops) user name).2
     = (default [] (foldl mapOp ∅ ops !! PairKey user name),
        bool_decide (is_Some (foldl mapOp ∅ ops !! PairKey user name)), None).
Proof.
  assert (Hgen : forall db, valuesNormalised db ->
                   pairsOf (foldl applyOp db ops) = foldl mapOp (pairsOf db) ops).
  { induction ops as [|o ops IH]; intros db Hinv; [reflexivity|].
    cbn [foldl]. rewrite IH, pairsOf_applyOp; [done|done|].
    destruct o; cbn; [by apply SetPair_valuesNormalised
                     |by apply DeletePair_valuesNormalised]. }
  assert (Hrun : pairsOf (runOps ops) = foldl mapOp ∅ ops).
  { unfold runOps. rewrite Hgen; [reflexivity|].
    intros b k e Hb. by rewrite lookup_empty in Hb. }
  split; [exact Hrun|].
  rewrite GetPair_storedValue, <- Hrun. cbn [snd].
  assert (Hs : storedValue (runOps ops) user name
               = pairsOf (runOps ops) !! PairKey user name).
  { unfold storedValue, pairsOf.
    destruct (runOps ops !! str "main") as [b|]; [|by rewrite lookup_empty].
    rewrite lookup_omap. by destruct (b !! PairKey user name) as [[?|]|]. }
  by rewrite Hs.
Qed.

(** X22. Writes to two pairs with different keys commute: two [SetPair]s, a
    [SetPair] and a [DeletePair], and two [DeletePair]s leave the same
    database in either order, and the error of a [SetPair] does not depend
    on an earlier [SetPair] to another key. *)
Theorem writes_to_other_pairs_commute (db : Bbolt.DB)
    (user name pval user' name' pval' : bytes) :
  PairKey user name <> PairKey user' name' ->
  (SetPair (SetPair db user name pval).1 user' name' pval').1
  = (SetPair (SetPair db user' name' pval').1 user name pval).1
  /\ (SetPair (SetPair db user name pval).1 user' name' pval').2
     = (SetPair db user' name' pval').2
  /\ (DeletePair (SetPair db user name pval).1 user' name').1
     = (SetPair (DeletePair db user' name').1 user name pval).1
  /\ (DeletePair (DeletePair db user name).1 user' name').1
     = (DeletePair (DeletePair db user' name').1 user name).1.
Proof.
  intros Hne.
  assert (Hne' : PairKey user' name' <> PairKey user name) by congruence.
  split; [|split; [|split]].
  - rewrite !(SetPair_unfold db). cbv zeta.
    destruct (db !! str "main") as [b|] eqn:Hb; cbn [default from_option id].
    all: repeat case_match; cbn [fst]; rewrite !SetPair_unfold; cbv zeta;
      rewrite ?Hb, ?lookup_insert_eq; cbn [default from_option id];
      rewrite ?lookup_insert_ne by done; simplify_eq.
    all: repeat case_match; cbn [fst]; simplify_eq;
      rewrite ?insert_insert_eq; try reflexivity.
    all: try (by rewrite lookup_empty in *).
    all: try (f_equal; by apply insert_insert_ne).
  - rewrite (SetPair_unfold db user name). cbv zeta.
    destruct (db !! str "main") as [b|] eqn:Hb; cbn [default from_option id].
    all: repeat case_match; cbn [fst]; try reflexivity.
    all: rewrite !SetPair_unfold; cbv zeta;
      rewrite ?Hb, ?lookup_insert_eq; cbn [default from_option id];
      rewrite ?lookup_insert_ne by done; rewrite ?lookup_empty;
      repeat case_match; simplify_eq; reflexivity.
  - rewrite (SetPair_unfold db user name), (DeletePair_unfold db). cbv zeta.
    destruct (db !! str "main") as [b|] eqn:Hb; cbn [default from_option id].
    all: repeat case_match; cbn [fst]; rewrite ?SetPair_unfold, ?DeletePair_unfold;
      cbv zeta; rewrite ?Hb, ?lookup_insert_eq; cbn [default from_option id];
      rewrite ?lookup_insert_ne, ?lookup_delete_ne by done; simplify_eq.
    all: repeat case_match; cbn [fst]; simplify_eq;
      rewrite ?insert_insert_eq; try reflexivity.
    all: try (by rewrite lookup_empty in *).
    all: try (f_equal; by rewrite delete_insert_ne).
  - rewrite !(DeletePair_unfold db).
    destruct (db !! str "main") as [b|] eqn:Hb.
    all: repeat case_match; cbn [fst]; rewrite ?DeletePair_unfold;
      rewrite ?Hb, ?lookup_insert_eq;
      rewrite ?lookup_delete_ne by done; simplify_eq.
    all: repeat case_match; cbn [fst]; simplify_eq;
      rewrite ?insert_insert_eq; try reflexivity.
    all: try (f_equal; by apply delete_delete).
Qed.

End StoreFacts.

(** ** Bodies of the responses *)






(** * Runs on concrete inputs

    The program is run with the Latin-1 rows of the case table. *)

(** A colon in an identifier moves the border between user and name. *)
Lemma PairKey_collision :
  ((Strings.ToLower latin1 (str "a:b"), Strings.ToLower latin1 (str "c"))
   <> (Strings.ToLower latin1 (str "a"), Strings.ToLower latin1 (str "b:c")))
  /\ @PairKey latin1 (str "a:b") (str "c") = @PairKey latin1 (str "a") (str "b:c")
  /\ @PairKey latin1 (str "a:b") (str "c") = str "a:b:c".
Proof.
  split; [|split]; [|reflexivity|reflexivity].
  vm_compute. discriminate.
Qed.

Lemma PairKey_injective_without_colon_witness :
  ((":"%char ∉ Strings.ToLower latin1 (str "Ab"))
   /\ (":"%char ∉ Strings.ToLower latin1 (str "aB")))
  /\ ((Strings.ToLower latin1 (str "Ab"), Strings.ToLower latin1 (str "c:d"))
      <> (Strings.ToLower latin1 (str "aB"), Strings.ToLower latin1 (str "C")))
  /\ @PairKey latin1 (str "Ab") (str "c:d") <> @PairKey latin1 (str "aB") (str "C").
Proof.
  assert (H1 : ":"%char ∉ Strings.ToLower latin1 (str "Ab"))
    by (apply (bool_decide_unpack _); vm_compute; exact I).
  assert (H2 : ":"%char ∉ Strings.ToLower latin1 (str "aB"))
    by (apply (bool_decide_unpack _); vm_compute; exact I).
  assert (H3 : ((Strings.ToLower latin1 (str "Ab"), Strings.ToLower latin1 (str "c:d"))
                <> (Strings.ToLower latin1 (str "aB"), Strings.ToLower latin1 (str "C"))))
    by (vm_compute; discriminate).
  split; [by split|]. split; [exact H3|].
  exact (@PairKey_injective_without_colon latin1 (str "Ab") (str "c:d") (str "aB") (str "C")
           (or_introl (conj H1 H2)) H3).
Defined.

(** The scenario of the specification: the value is trimmed, not
    lower-cased, and stored under the key "0000:alpha". *)
Lemma SetPair_then_GetPair_witness :
  exists db',
    @SetPair latin1 ∅ (str "0000") (str "ALPHA") (str "  Alpha.  ") = (db', None)
    /\ db' = {[ str "main" :=
                  {[ str "0000:alpha" := Bbolt.Value (str "Alpha." ++ [nl]) ]} ]}
    /\ @GetPair latin1 db' (str "0000") (str "ALPHA") = (db', (str "Alpha." ++ [nl], true, None)).
Proof.
  eexists. split; [reflexivity|]. split; [reflexivity|].
  exact (@SetPair_then_GetPair latin1 ∅ _ (str "0000") (str "ALPHA") (str "  Alpha.  ")
           eq_refl).
Defined.

Lemma GetPair_absent_is_no_error_witness :
  @GetPair latin1 ∅ (str "0000") (str "nope") = (∅, ([], false, None))
  /\ (@DeletePair latin1 {[ str "main" := {[ str "0000:alpha" := Bbolt.Value (str "Alpha." ++ [nl]) ]} ]}
        (str "0000") (str "Alpha")).2 = None
  /\ @GetPair latin1 (@DeletePair latin1 {[ str "main" := {[ str "0000:alpha" := Bbolt.Value (str "Alpha." ++ [nl]) ]} ]}
                (str "0000") (str "Alpha")).1 (str "0000") (str "alpha")
     = ({[ str "main" := ∅ ]}, ([], false, None)).
Proof.
  split; [|split].
  - exact (proj1 (proj2 (@GetPair_absent_is_no_error latin1 ∅ (str "0000") (str "nope")))
             eq_refl).
  - reflexivity.
  - exact (proj2 (proj2 (proj2 (@GetPair_absent_is_no_error latin1
             {[ str "main" := {[ str "0000:alpha" := Bbolt.Value (str "Alpha." ++ [nl]) ]} ]}
             (str "0000") (str "Alpha")))) {[ str "main" := ∅ ]} eq_refl).
Defined.

Lemma reachable_values_normalised_witness :
  @runOps latin1 [OpSet (str "0000") (str "alpha") (str "  Alpha.  ");
          OpSet (str "0000") (str "Bravo") (str "Bravo.");
          OpDelete (str "0000") (str "ALPHA")] !! str "main"
  = Some {[ str "0000:bravo" := Bbolt.Value (str "Bravo." ++ [nl]) ]}
  /\ exists v, Bbolt.Value (str "Bravo." ++ [nl]) = Bbolt.Value v /\ normalised v.
Proof.
  split; [reflexivity|].
  exact (@reachable_values_normalised latin1
           [OpSet (str "0000") (str "alpha") (str "  Alpha.  ");
            OpSet (str "0000") (str "Bravo") (str "Bravo.");
            OpDelete (str "0000") (str "ALPHA")]
           {[ str "0000:bravo" := Bbolt.Value (str "Bravo." ++ [nl]) ]}
           (str "0000:bravo") (Bbolt.Value (str "Bravo." ++ [nl]))
           eq_refl eq_refl).
Defined.



(** The test of [PairKey], and identifiers above ASCII. *)
Lemma PairKey_case_insensitive_witness :
  lowerCaseTable latin1
  /\ (@PairKey latin1 (str "USER") (str "NAME")
      = @PairKey latin1 (Strings.ToLower latin1 (str "USER"))
                (Strings.ToLower latin1 (str "NAME"))
      /\ @PairKey latin1 (str "USER") (str "NAME")
         = Strings.ToLower latin1 (str "USER") ++ str ":"
           ++ Strings.ToLower latin1 (str "NAME"))
  /\ @PairKey latin1 (str "USER") (str "NAME") = str "user:name"
  /\ @PairKey latin1 (str "ÉMILE") (str "Ärger") = str "émile:ärger".
Proof.
  split; [exact latin1_lowerCaseTable|]. split; [|split; reflexivity].
  exact (@PairKey_case_insensitive latin1 (str "USER") (str "NAME")
           (or_introl latin1_lowerCaseTable)).
Defined.

(** The test of [PairValue], and a text of spaces only. *)
Lemma PairValue_normalises_idempotently_witness :
  PairValue ("009"%char :: str "Value." ++ [nl]) = str "Value." ++ [nl]
  /\ allSpace ("009"%char :: str "  " ++ [nl]) = true
  /\ PairValue ("009"%char :: str "  " ++ [nl]) = [nl].
Proof.
  split; [reflexivity|]. split; [reflexivity|].
  exact (proj1 (proj2 (proj2 (PairValue_normalises_idempotently
           ("009"%char :: str "  " ++ [nl])))) eq_refl).
Defined.

Lemma empty_identifiers_are_accepted_witness :
  exists db',
    @SetPair latin1 ∅ [] [] (str " v ") = (db', None)
    /\ db' = {[ str "main" := {[ str ":" := Bbolt.Value (str "v" ++ [nl]) ]} ]}
    /\ @GetPair latin1 db' [] [] = (db', (str "v" ++ [nl], true, None)).
Proof.
  eexists. split; [reflexivity|]. split; [reflexivity|].
  exact (proj2 (proj2 (proj2 (proj2 (@empty_identifiers_are_accepted latin1)))
                  ∅ _ (str " v ") eq_refl)).
Defined.

(** ** Further runs *)

(** Identifiers above ASCII. *)
Lemma PairKey_is_lower_case_witness :
  lowerCaseTable latin1
  /\ Strings.ToLower latin1 (@PairKey latin1 (str "ÉMILE") (str "Name"))
     = @PairKey latin1 (str "ÉMILE") (str "Name")
  /\ existsb Strings.isUpperByte (@PairKey latin1 (str "ÉMILE") (str "Name")) = false
  /\ @PairKey latin1 (str "ÉMILE") (str "Name") = str "émile:name".
Proof.
  pose proof (@PairKey_is_lower_case latin1 (str "ÉMILE") (str "Name")
                (or_introl latin1_lowerCaseTable)) as (H1 & H2 & _).
  split; [exact latin1_lowerCaseTable|]. split; [exact H1|].
  split; [exact H2|reflexivity].
Defined.

(** The test of [PairKey]. *)
Lemma PairKey_ascii_bytes_witness :
  (isASCII (str "USER") = true /\ isASCII (str "NAME") = true)
  /\ @PairKey latin1 (str "USER") (str "NAME")
     = map Strings.lowerByte (str "USER") ++ str ":"
       ++ map Strings.lowerByte (str "NAME")
  /\ @PairKey latin1 (str "USER") (str "NAME") = str "user:name"
  /\ length (@PairKey latin1 (str "USER") (str "NAME")) = 9%nat.
Proof.
  pose proof (@PairKey_ascii_bytes latin1 (str "USER") (str "NAME") eq_refl eq_refl)
    as (H1 & H2 & _).
  split; [by split|]. split; [exact H1|]. split; [reflexivity|exact H2].
Defined.

Lemma PairValue_of_trimmed_text_witness :
  trimmed (str "Value.")
  /\ PairValue (str "Value.") = str "Value." ++ [nl]
  /\ Strings.TrimSpace (PairValue (str "Value.")) = str "Value.".
Proof.
  assert (Ht : trimmed (str "Value.")) by (split; reflexivity).
  split; [exact Ht|]. exact (PairValue_of_trimmed_text (str "Value.") Ht).
Defined.

(** The test of [PairValue], with more padding. *)
Lemma PairValue_ignores_padding_witness :
  (asciiSpaces ("009"%char :: str " ") = true /\ asciiSpaces (str "  " ++ [nl]) = true)
  /\ PairValue (("009"%char :: str " ") ++ str "Value." ++ str "  " ++ [nl])
     = PairValue (str "Value.")
  /\ PairValue (str "Value.") = str "Value." ++ [nl].
Proof.
  pose proof (@PairValue_ignores_padding latin1 ("009"%char :: str " ")
                (str "Value.") (str "  " ++ [nl]) eq_refl eq_refl) as [H _].
  split; [by split|]. split; [exact H|reflexivity].
Defined.


Lemma SetPair_last_write_wins_witness :
  exists db1 db2,
    @SetPair latin1 ∅ (str "0000") (str "alpha") (str "one") = (db1, None)
    /\ @SetPair latin1 db1 (str "0000") (str "ALPHA") (str " two ") = (db2, None)
    /\ @SetPair latin1 ∅ (str "0000") (str "ALPHA") (str " two ") = (db2, None)
    /\ @GetPair latin1 db2 (str "0000") (str "ALPHA")
       = (db2, (str "two" ++ [nl], true, None)).
Proof.
  eexists _, _. split; [reflexivity|]. split; [reflexivity|].
  exact (@SetPair_last_write_wins latin1 ∅ _ _ (str "0000") (str "ALPHA")
           (str "one") (str " two ") eq_refl eq_refl).
Defined.

Lemma SetPair_leaves_other_pairs_witness :
  @PairKey latin1 (str "0000") (str "bravo") <> @PairKey latin1 (str "0000") (str "alpha")
  /\ (@GetPair latin1
        (@SetPair latin1 mockDB (str "0000") (str "alpha") (str "new")).1
        (str "0000") (str "bravo")).2
     = (@GetPair latin1 mockDB (str "0000") (str "bravo")).2
  /\ (@GetPair latin1 mockDB (str "0000") (str "bravo")).2
     = (str "Bravo." ++ [nl], true, None).
Proof.
  assert (Hne : @PairKey latin1 (str "0000") (str "bravo")
                <> @PairKey latin1 (str "0000") (str "alpha"))
    by (vm_compute; discriminate).
  split; [exact Hne|]. split; [|reflexivity].
  exact (proj2 (@SetPair_leaves_other_pairs latin1 mockDB (str "0000") (str "alpha")
                  (str "new") (str "0000") (str "bravo") Hne)).
Defined.


Lemma DeletePair_leaves_other_pairs_witness :
  @PairKey latin1 (str "0000") (str "bravo") <> @PairKey latin1 (str "0000") (str "alpha")
  /\ (@GetPair latin1 (@DeletePair latin1 mockDB (str "0000") (str "alpha")).1
        (str "0000") (str "bravo")).2
     = (@GetPair latin1 mockDB (str "0000") (str "bravo")).2.
Proof.
  assert (Hne : @PairKey latin1 (str "0000") (str "bravo")
                <> @PairKey latin1 (str "0000") (str "alpha"))
    by (vm_compute; discriminate).
  split; [exact Hne|].
  exact (proj2 (@DeletePair_leaves_other_pairs latin1 mockDB (str "0000") (str "alpha")
                  (str "0000") (str "bravo") Hne)).
Defined.

Lemma SetPair_then_DeletePair_witness :
  exists db1,
    @SetPair latin1 mockDB (str "0000") (str "test") (str "Test.") = (db1, None)
    /\ @DeletePair latin1 db1 (str "0000") (str "test") = (mockDB, None).
Proof.
  eexists. split; [reflexivity|].
  exact (proj2 (@SetPair_then_DeletePair latin1 mockDB _ (str "0000") (str "test")
                  (str "Test.") eq_refl) _ eq_refl eq_refl).
Defined.

(** The test of [GetPair]. *)
Lemma GetPair_reads_entry_witness :
  entryAt mockDB (@PairKey latin1 (str "0000") (str "alpha"))
  = Some (Bbolt.Value (str "Alpha." ++ [nl]))
  /\ @GetPair latin1 mockDB (str "0000") (str "alpha")
     = (mockDB, (str "Alpha." ++ [nl], true, None)).
Proof.
  split; [reflexivity|].
  exact (proj1 (@GetPair_reads_entry latin1 mockDB (str "0000") (str "alpha"))
           (str "Alpha." ++ [nl]) eq_refl).
Defined.

Lemma case_variants_share_pair_witness :
  (Strings.ToLower latin1 (str "User") = Strings.ToLower latin1 (str "USER")
   /\ Strings.ToLower latin1 (str "Ärger") = Strings.ToLower latin1 (str "ärger"))
  /\ @SetPair latin1 mockDB (str "User") (str "Ärger") (str "v")
     = @SetPair latin1 mockDB (str "USER") (str "ärger") (str "v")
  /\ @DeletePair latin1 mockDB (str "User") (str "Ärger")
     = @DeletePair latin1 mockDB (str "USER") (str "ärger").
Proof.
  pose proof (@case_variants_share_pair latin1 mockDB (str "User") (str "Ärger")
                (str "USER") (str "ärger") (str "v") eq_refl eq_refl)
    as (H1 & _ & H3 & _).
  split; [by split|]. split; [exact H1|exact H3].
Defined.

Lemma only_bucket_main_is_written_witness :
  str "other" <> str "main"
  /\ foldl (@applyOp latin1) {[ str "other" := {[ str "k" := Bbolt.Value (str "v") ]} ]}
       [OpSet (str "0000") (str "alpha") (str "Alpha.");
        OpDelete (str "0000") (str "alpha")] !! str "other"
     = Some {[ str "k" := Bbolt.Value (str "v") ]}.
Proof.
  assert (Hne : str "other" <> str "main") by (vm_compute; discriminate).
  split; [exact Hne|].
  exact (proj1 (@only_bucket_main_is_written latin1
                  [OpSet (str "0000") (str "alpha") (str "Alpha.");
                   OpDelete (str "0000") (str "alpha")]
                  {[ str "other" := {[ str "k" := Bbolt.Value (str "v") ]} ]})
           (str "other") Hne).
Defined.

Lemma GetPair_reachable_normalised_witness :
  (@GetPair latin1
     (@runOps latin1 [OpSet (str "0000") (str "alpha") (str "  Alpha.  ");
                      OpSet (str "0000") (str "Bravo") (str "Bravo.");
                      OpDelete (str "0000") (str "ALPHA")])
     (str "0000") (str "bravo")).2 = (str "Bravo." ++ [nl], true, None)
  /\ normalised (str "Bravo." ++ [nl])
  /\ last (str "Bravo." ++ [nl]) = Some nl.
Proof.
  pose proof (@GetPair_reachable_normalised latin1
                [OpSet (str "0000") (str "alpha") (str "  Alpha.  ");
                 OpSet (str "0000") (str "Bravo") (str "Bravo.");
                 OpDelete (str "0000") (str "ALPHA")]
                (str "0000") (str "bravo") (str "Bravo." ++ [nl]) None eq_refl)
    as (H1 & _ & H3).
  split; [reflexivity|]. split; [exact H1|exact H3].
Defined.

Lemma writes_to_other_pairs_commute_witness :
  @PairKey latin1 (str "0000") (str "alpha") <> @PairKey latin1 (str "0000") (str "test")
  /\ (@SetPair latin1 (@SetPair latin1 mockDB (str "0000") (str "alpha") (str "new")).1
        (str "0000") (str "test") (str "Test.")).1
     = (@SetPair latin1 (@SetPair latin1 mockDB (str "0000") (str "test") (str "Test.")).1
          (str "0000") (str "alpha") (str "new")).1.
Proof.
  assert (Hne : @PairKey latin1 (str "0000") (str "alpha")
                <> @PairKey latin1 (str "0000") (str "test"))
    by (vm_compute; discriminate).
  split; [exact Hne|].
  exact (proj1 (@writes_to_other_pairs_commute latin1 mockDB (str "0000") (str "alpha")
                  (str "new") (str "0000") (str "test") (str "Test.") Hne)).
Defined.


